(** * Routing engine of the Kampala transport system

    A shallow embedding of [graph.py], [shortest_path.py], [heuristics.py]
    and [parallel.py], followed by the properties of the engine.

    Conventions of the embedding.
    - Node identifiers are Python integers: [Z].
    - Latitudes and longitudes are Python floats: the binary64 numbers
      [float] of the kernel, with the arithmetic of the hardware.
    - Travel times are Python integers, [Z], which Python adds exactly;
      [float('inf')] is the constructor [Inf] of [cost].  The module
      [Binary64] embeds the path finder once more for travel times that
      are floats, whose sums round and overflow.
    - Dictionaries are [gmap]s, adjacency lists are lists of pairs.
    - [while] loops take a fuel argument; [None] means that the fuel ran
      out before the loop ended. *)

From Stdlib Require Import ZArith Floats Lia List Sorted.
From stdpp Require Import gmap list strings.

Set Warnings "-inexact-float".
Open Scope Z_scope.

(* ===================================================================== *)
(** * Call outcomes *)
(* ===================================================================== *)

(** Exceptions a Python call can propagate to its caller. *)
Inductive exn : Type :=
  ValueError | TypeError | KeyError | IndexError | OverflowError.

(** What a call does: it returns a value, it raises, or (in the model)
    it has not finished when the fuel is exhausted. *)
Inductive outcome (A : Type) : Type :=
| Returned (v : A)
| Raised (e : exn)
| Unfinished.
Arguments Returned {A} v.
Arguments Raised {A} e.
Arguments Unfinished {A}.

(* ===================================================================== *)
(** * graph.py *)
(* ===================================================================== *)

Record SimpleGraph : Type := mkGraph {
  adjacency : gmap Z (list (Z * Z));
  positions : gmap Z (float * float);
  grid : list (list (list Z))
}.

(** [SimpleGraph.__init__] *)
Definition empty : SimpleGraph :=
  {| adjacency := ∅;
     positions := ∅;
     grid := replicate 10 (replicate 10 []) |}.

(** Python's [int(x)] on a float: the value [m * 2^e] of a finite float
    is truncated toward zero; an infinity raises [OverflowError] and a
    NaN raises [ValueError]. *)
Definition py_int (x : float) : outcome Z :=
  match Prim2SF x with
  | S754_zero _ => Returned 0
  | S754_finite s m e =>
      Returned (if s then - Z.shiftl (Zpos m) e else Z.shiftl (Zpos m) e)
  | S754_infinity _ => Raised OverflowError
  | S754_nan => Raised ValueError
  end.

(** [int((lat - 0.3) * 20)] and [int((lon - 32.5) * 20)], computed in
    binary64 as the interpreter does. *)
Definition grid_x (lat : float) : outcome Z := py_int ((lat - 0.3) * 20)%float.
Definition grid_y (lon : float) : outcome Z := py_int ((lon - 32.5) * 20)%float.

Definition in_grid (x y : Z) : bool :=
  (0 <=? x) && (x <? 10) && (0 <=? y) && (y <? 10).

(** [self.grid[x][y].append(node_id)] *)
Definition grid_append (x y node_id : Z) (gr : list (list (list Z)))
  : list (list (list Z)) :=
  alter (alter (λ bucket, bucket ++ [node_id]) (Z.to_nat y)) (Z.to_nat x) gr.

(** [add_node] mutates the graph.  [add_node g node_id lat lon] is the
    graph after the call, also when the call raised: the two dictionary
    assignments come first, and a conversion that raises leaves the grid
    as it was. *)
Definition add_node (g : SimpleGraph) (node_id : Z) (lat lon : float)
  : SimpleGraph :=
  {| adjacency := <[node_id := []]> (adjacency g);
     positions := <[node_id := (lat, lon)]> (positions g);
     grid := match grid_x lat, grid_y lon with
             | Returned x, Returned y =>
                 if in_grid x y then grid_append x y node_id (grid g)
                 else grid g
             | _, _ => grid g
             end |}.

(** What the call [add_node(node_id, lat, lon)] itself does: it returns
    [None], or the first conversion that fails raises. *)
Definition add_node_result (lat lon : float) : outcome unit :=
  match grid_x lat with
  | Returned _ =>
      match grid_y lon with
      | Returned _ => Returned tt
      | Raised e => Raised e
      | Unfinished => Unfinished
      end
  | Raised e => Raised e
  | Unfinished => Unfinished
  end.

(** [if n not in self.adjacency: self.adjacency[n] = []] *)
Definition ensure (n : Z) (adj : gmap Z (list (Z * Z))) : gmap Z (list (Z * Z)) :=
  match adj !! n with
  | Some _ => adj
  | None => <[n := []]> adj
  end.

Definition add_edge (g : SimpleGraph) (from_node to_node travel_time : Z)
  : SimpleGraph :=
  let a1 := ensure from_node (adjacency g) in
  let a2 := ensure to_node a1 in
  let a3 := alter (λ l, l ++ [(to_node, travel_time)]) from_node a2 in
  let a4 := alter (λ l, l ++ [(from_node, travel_time)]) to_node a3 in
  {| adjacency := a4; positions := positions g; grid := grid g |}.

Definition get_neighbors (g : SimpleGraph) (node_id : Z) : list (Z * Z) :=
  default [] (adjacency g !! node_id).

(** Construction histories: the calls a client makes on a fresh graph. *)
Inductive op : Type :=
| AddNode (node_id : Z) (lat lon : float)
| AddEdge (from_node to_node travel_time : Z).

Definition apply_op (g : SimpleGraph) (o : op) : SimpleGraph :=
  match o with
  | AddNode n lat lon => add_node g n lat lon
  | AddEdge a b w => add_edge g a b w
  end.

Definition run (ops : list op) (g : SimpleGraph) : SimpleGraph :=
  fold_left apply_op ops g.

Definition build (ops : list op) : SimpleGraph := run ops empty.

(** The node ids an operation names. *)
Definition op_ids (o : op) : list Z :=
  match o with
  | AddNode n _ _ => [n]
  | AddEdge a b _ => [a; b]
  end.

(** Symmetry of the adjacency structure. *)
Definition symmetric (g : SimpleGraph) : Prop :=
  ∀ a b w, (b, w) ∈ get_neighbors g a → (a, w) ∈ get_neighbors g b.

(** A history never re-inserts a node that already carries edges:
    each [add_node n] happens while [n] has no adjacency entries. *)
Fixpoint nodes_before_edges (g : SimpleGraph) (ops : list op) : Prop :=
  match ops with
  | [] => True
  | o :: rest =>
      match o with
      | AddNode n _ _ => get_neighbors g n = []
      | AddEdge _ _ _ => True
      end ∧ nodes_before_edges (apply_op g o) rest
  end.

(** [math.floor(x)] on a float: the largest integer not above [x]; it
    raises as [int] does. *)
Definition py_floor (x : float) : outcome Z :=
  match Prim2SF x with
  | S754_zero _ => Returned 0
  | S754_finite s m e =>
      Returned (Z.shiftl (if s then Zneg m else Zpos m) e)
  | S754_infinity _ => Raised OverflowError
  | S754_nan => Raised ValueError
  end.

(** The cell the specification describes: the floor of the transform. *)
Definition floor_cell (lat lon : float) : outcome Z * outcome Z :=
  (py_floor ((lat - 0.3) * 20)%float, py_floor ((lon - 32.5) * 20)%float).

(** Bucket [(x, y)] of the spatial index. *)
Definition bucket (g : SimpleGraph) (x y : nat) : list Z :=
  default [] (grid g !! x ≫= (.!! y)).

(* ===================================================================== *)
(** * Costs and the priority queue *)
(* ===================================================================== *)

(** A travel time: a Python integer, or [float('inf')]. *)
Inductive cost : Type := Fin (z : Z) | Inf.

(** [a < b] on costs. *)
Definition cost_lt (a b : cost) : bool :=
  match a, b with
  | Fin x, Fin y => x <? y
  | Fin _, Inf => true
  | Inf, _ => false
  end.

(** [a + b] on costs. *)
Definition cost_add (a b : cost) : cost :=
  match a, b with
  | Fin x, Fin y => Fin (x + y)
  | _, _ => Inf
  end.

(** [d.get(k, float('inf'))] *)
Definition get_inf (d : gmap Z Z) (k : Z) : cost :=
  match d !! k with
  | Some v => Fin v
  | None => Inf
  end.

(** Python compares tuples lexicographically. *)
Definition pair_leb (a b : Z * Z) : bool :=
  (a.1 <? b.1) || ((a.1 =? b.1) && (a.2 <=? b.2)).

Definition triple_leb (a b : Z * Z * Z) : bool :=
  (a.1.1 <? b.1.1) ||
  ((a.1.1 =? b.1.1) && pair_leb (a.1.2, a.2) (b.1.2, b.2)).

(** [heapq]: the queue is kept as a list sorted by the tuple order, so
    [heappop] takes the head.  Tuples of integers are totally ordered
    and equal tuples are indistinguishable, hence the sequence of popped
    entries is the one of the binary heap of the library. *)
Section Heap.

Context {A : Type} (leb : A → A → bool).

Fixpoint heappush (x : A) (h : list A) : list A :=
  match h with
  | [] => [x]
  | y :: t => if leb x y then x :: y :: t else y :: heappush x t
  end.

Definition heappop (h : list A) : option (A * list A) :=
  match h with
  | [] => None
  | x :: t => Some (x, t)
  end.

End Heap.

(* ===================================================================== *)
(** * shortest_path.py *)
(* ===================================================================== *)

(** Local variables of [dijkstra]'s search loop. *)
Record dstate : Type := mkD {
  pq : list (Z * Z);
  distances : gmap Z Z;
  previous : gmap Z Z
}.

(** Body of [for neighbor, travel_time in get_neighbors(current)]. *)
Definition relax (current current_dist : Z) (st : dstate) (e : Z * Z) : dstate :=
  let '(neighbor, travel_time) := e in
  let new_dist := current_dist + travel_time in
  if cost_lt (Fin new_dist) (get_inf (distances st) neighbor)
  then {| pq := heappush pair_leb (new_dist, neighbor) (pq st);
          distances := <[neighbor := new_dist]> (distances st);
          previous := <[neighbor := current]> (previous st) |}
  else st.

(** [while pq: ...] of [dijkstra]. *)
Fixpoint dijkstra_loop (fuel : nat) (g : SimpleGraph) (end_ : Z) (st : dstate)
  : option dstate :=
  match fuel with
  | O => None
  | S fuel' =>
      match heappop (pq st) with
      | None => Some st
      | Some ((current_dist, current), rest) =>
          let st1 := {| pq := rest; distances := distances st;
                        previous := previous st |} in
          if decide (current = end_) then Some st1
          else if cost_lt (get_inf (distances st1) current) (Fin current_dist)
          then dijkstra_loop fuel' g end_ st1
          else dijkstra_loop fuel' g end_
                 (fold_left (relax current current_dist)
                            (get_neighbors g current) st1)
      end
  end.

(** [while current in previous: path.append(current); current = previous[current]] *)
Fixpoint walk_back (fuel : nat) (prev : gmap Z Z) (current : Z) (path : list Z)
  : option (list Z) :=
  match fuel with
  | O => None
  | S fuel' =>
      match prev !! current with
      | Some p => walk_back fuel' prev p (path ++ [current])
      | None => Some path
      end
  end.

Definition dijkstra_init (start : Z) : dstate :=
  {| pq := [(0, start)]; distances := {[start := 0]}; previous := ∅ |}.

(** The search phase alone: the state in which the [while] loop ends. *)
Definition dijkstra_search (fuel : nat) (g : SimpleGraph) (start end_ : Z)
  : option dstate :=
  dijkstra_loop fuel g end_ (dijkstra_init start).

Definition dijkstra (fuel : nat) (g : SimpleGraph) (start end_ : Z)
  : outcome (list Z * cost) :=
  match dijkstra_search fuel g start end_ with
  | None => Unfinished
  | Some st =>
      match walk_back fuel (previous st) end_ [] with
      | None => Unfinished
      | Some path =>
          Returned (rev (path ++ [start]), get_inf (distances st) end_)
      end
  end.

(** Local variables of [a_star]'s search loop. *)
Record astate : Type := mkA {
  apq : list (Z * Z * Z);
  g_score : gmap Z Z;
  f_score : gmap Z Z;
  aprevious : gmap Z Z
}.

(** Body of the neighbour loop of [a_star].  The entry pushed is
    [(f_score[neighbor], tentative_g, neighbor)] where [f_score[neighbor]]
    has just been set to [tentative_g]. *)
Definition a_relax (current current_g : Z) (st : astate) (e : Z * Z) : astate :=
  let '(neighbor, travel_time) := e in
  let tentative_g := current_g + travel_time in
  if cost_lt (Fin tentative_g) (get_inf (g_score st) neighbor)
  then {| apq := heappush triple_leb (tentative_g, tentative_g, neighbor) (apq st);
          g_score := <[neighbor := tentative_g]> (g_score st);
          f_score := <[neighbor := tentative_g]> (f_score st);
          aprevious := <[neighbor := current]> (aprevious st) |}
  else st.

Fixpoint a_star_loop (fuel : nat) (g : SimpleGraph) (end_ : Z) (st : astate)
  : option astate :=
  match fuel with
  | O => None
  | S fuel' =>
      match heappop (apq st) with
      | None => Some st
      | Some ((current_f, current_g, current), rest) =>
          let st1 := {| apq := rest; g_score := g_score st;
                        f_score := f_score st; aprevious := aprevious st |} in
          if decide (current = end_) then Some st1
          else if cost_lt (get_inf (g_score st1) current) (Fin current_g)
          then a_star_loop fuel' g end_ st1
          else a_star_loop fuel' g end_
                 (fold_left (a_relax current current_g)
                            (get_neighbors g current) st1)
      end
  end.

Definition a_star_init (start : Z) : astate :=
  {| apq := [(0, 0, start)]; g_score := {[start := 0]};
     f_score := {[start := 0]}; aprevious := ∅ |}.

Definition a_star_search (fuel : nat) (g : SimpleGraph) (start end_ : Z)
  : option astate :=
  a_star_loop fuel g end_ (a_star_init start).

Definition a_star (fuel : nat) (g : SimpleGraph) (start end_ : Z)
  : outcome (list Z * cost) :=
  match a_star_search fuel g start end_ with
  | None => Unfinished
  | Some st =>
      match walk_back fuel (aprevious st) end_ [] with
      | None => Unfinished
      | Some path =>
          Returned (rev (path ++ [start]), get_inf (g_score st) end_)
      end
  end.

(* ===================================================================== *)
(** * graph.py and shortest_path.py on float travel times *)
(* ===================================================================== *)

(** [add_edge] stores whatever number it is given.  Above, travel times
    are Python integers.  Here the same code is read with travel times
    that are floats: [+] is the binary64 addition, which rounds and
    overflows to [inf], and [<], [>] and the tuple order of the queue are
    the comparisons of floats.  The integer [0] of [distances = {start: 0}]
    is the float zero after its first addition to a travel time and
    compares like it.  With positive travel times no NaN and no negative
    zero arises, so the queue entries are totally ordered and the sorted
    list pops what the binary heap pops.  Only the adjacency dictionary
    is modelled: the path finder reads nothing else of the graph. *)
Module Binary64.

Definition adjacency_map : Type := gmap Z (list (Z * float)).

Definition ensure (n : Z) (adj : adjacency_map) : adjacency_map :=
  match adj !! n with
  | Some _ => adj
  | None => <[n := []]> adj
  end.

Definition add_edge (adj : adjacency_map) (from_node to_node : Z)
    (travel_time : float) : adjacency_map :=
  let a1 := ensure from_node adj in
  let a2 := ensure to_node a1 in
  let a3 := alter (λ l, l ++ [(to_node, travel_time)]) from_node a2 in
  alter (λ l, l ++ [(from_node, travel_time)]) to_node a3.

Definition get_neighbors (adj : adjacency_map) (node_id : Z) : list (Z * float) :=
  default [] (adj !! node_id).

(** [d.get(k, float('inf'))] *)
Definition get_inf (d : gmap Z float) (k : Z) : float :=
  default infinity (d !! k).

(** Python compares tuples lexicographically: the first components that
    are not equal decide. *)
Definition pair_leb (a b : float * Z) : bool :=
  (a.1 <? b.1)%float || ((a.1 =? b.1)%float && (a.2 <=? b.2)).

Definition triple_leb (a b : float * float * Z) : bool :=
  (a.1.1 <? b.1.1)%float ||
  ((a.1.1 =? b.1.1)%float && pair_leb (a.1.2, a.2) (b.1.2, b.2)).

Record dstate : Type := mkD {
  pq : list (float * Z);
  distances : gmap Z float;
  previous : gmap Z Z
}.

Definition relax (current : Z) (current_dist : float) (st : dstate)
    (e : Z * float) : dstate :=
  let '(neighbor, travel_time) := e in
  let new_dist := (current_dist + travel_time)%float in
  if (new_dist <? get_inf (distances st) neighbor)%float
  then {| pq := heappush pair_leb (new_dist, neighbor) (pq st);
          distances := <[neighbor := new_dist]> (distances st);
          previous := <[neighbor := current]> (previous st) |}
  else st.

Fixpoint dijkstra_loop (fuel : nat) (g : adjacency_map) (end_ : Z) (st : dstate)
  : option dstate :=
  match fuel with
  | O => None
  | S fuel' =>
      match heappop (pq st) with
      | None => Some st
      | Some ((current_dist, current), rest) =>
          let st1 := {| pq := rest; distances := distances st;
                        previous := previous st |} in
          if decide (current = end_) then Some st1
          else if (get_inf (distances st1) current <? current_dist)%float
          then dijkstra_loop fuel' g end_ st1
          else dijkstra_loop fuel' g end_
                 (fold_left (relax current current_dist)
                            (get_neighbors g current) st1)
      end
  end.

Definition dijkstra (fuel : nat) (g : adjacency_map) (start end_ : Z)
  : outcome (list Z * float) :=
  match dijkstra_loop fuel g end_
          {| pq := [(0%float, start)]; distances := {[start := 0%float]};
             previous := ∅ |} with
  | None => Unfinished
  | Some st =>
      match walk_back fuel (previous st) end_ [] with
      | None => Unfinished
      | Some path =>
          Returned (rev (path ++ [start]), get_inf (distances st) end_)
      end
  end.

Record astate : Type := mkA {
  apq : list (float * float * Z);
  g_score : gmap Z float;
  f_score : gmap Z float;
  aprevious : gmap Z Z
}.

Definition a_relax (current : Z) (current_g : float) (st : astate)
    (e : Z * float) : astate :=
  let '(neighbor, travel_time) := e in
  let tentative_g := (current_g + travel_time)%float in
  if (tentative_g <? get_inf (g_score st) neighbor)%float
  then {| apq := heappush triple_leb (tentative_g, tentative_g, neighbor) (apq st);
          g_score := <[neighbor := tentative_g]> (g_score st);
          f_score := <[neighbor := tentative_g]> (f_score st);
          aprevious := <[neighbor := current]> (aprevious st) |}
  else st.

Fixpoint a_star_loop (fuel : nat) (g : adjacency_map) (end_ : Z) (st : astate)
  : option astate :=
  match fuel with
  | O => None
  | S fuel' =>
      match heappop (apq st) with
      | None => Some st
      | Some ((current_f, current_g, current), rest) =>
          let st1 := {| apq := rest; g_score := g_score st;
                        f_score := f_score st; aprevious := aprevious st |} in
          if decide (current = end_) then Some st1
          else if (get_inf (g_score st1) current <? current_g)%float
          then a_star_loop fuel' g end_ st1
          else a_star_loop fuel' g end_
                 (fold_left (a_relax current current_g)
                            (get_neighbors g current) st1)
      end
  end.

Definition a_star (fuel : nat) (g : adjacency_map) (start end_ : Z)
  : outcome (list Z * float) :=
  match a_star_loop fuel g end_
          {| apq := [(0%float, 0%float, start)];
             g_score := {[start := 0%float]};
             f_score := {[start := 0%float]}; aprevious := ∅ |} with
  | None => Unfinished
  | Some st =>
      match walk_back fuel (aprevious st) end_ [] with
      | None => Unfinished
      | Some path =>
          Returned (rev (path ++ [start]), get_inf (g_score st) end_)
      end
  end.

Definition edge (g : adjacency_map) (u v : Z) : Prop :=
  ∃ w, (v, w) ∈ get_neighbors g u.

Definition reachable (g : adjacency_map) (s e : Z) : Prop := rtc (edge g) s e.

(** Executable test that every travel time of [g] is positive and
    finite. *)
Definition positive_finite (g : adjacency_map) : bool :=
  forallb (λ e : Z * list (Z * float),
             forallb (λ nw : Z * float,
                        (0 <? nw.2)%float && (nw.2 <? infinity)%float) e.2)
          (map_to_list g).

End Binary64.

(* ===================================================================== *)
(** * heuristics.py *)
(* ===================================================================== *)

(** Truth value of [nearest] in [if nearest:]: [None] and [0] are false. *)
Definition truthy (nearest : option Z) : bool :=
  match nearest with
  | Some z => negb (z =? 0)
  | None => false
  end.

(** [for stop in unvisited: ...] carrying [nearest] and [min_time]. *)
Fixpoint nearest_scan (fuel : nat) (g : SimpleGraph) (current : Z)
    (stops : list Z) (nearest : option Z) (min_time : cost)
  : outcome (option Z * cost) :=
  match stops with
  | [] => Returned (nearest, min_time)
  | stop :: rest =>
      match a_star fuel g current stop with
      | Returned (_, time) =>
          if cost_lt time min_time
          then nearest_scan fuel g current rest (Some stop) time
          else nearest_scan fuel g current rest nearest min_time
      | Raised e => Raised e
      | Unfinished => Unfinished
      end
  end.

(** [while unvisited: ...].  [rounds] bounds the iterations of this loop,
    [fuel] is handed to every [a_star] call.  The set [unvisited] is
    traversed in the order of [elements]; the order in which CPython
    traverses a set can be another one, which matters only for the
    choice among several stops at the same least cost. *)
Fixpoint tsp_loop (rounds fuel : nat) (g : SimpleGraph) (unvisited : gset Z)
    (current : Z) (route : list Z) (total_time : cost)
  : outcome (list Z * cost) :=
  match rounds with
  | O => Unfinished
  | S rounds' =>
      if decide (unvisited = ∅) then Returned (route, total_time)
      else
        match nearest_scan fuel g current (elements unvisited) None Inf with
        | Returned (nearest, min_time) =>
            match nearest with
            | Some n =>
                if truthy nearest
                then tsp_loop rounds' fuel g (unvisited ∖ {[n]}) n
                              (route ++ [n]) (cost_add total_time min_time)
                else tsp_loop rounds' fuel g unvisited current route total_time
            | None => tsp_loop rounds' fuel g unvisited current route total_time
            end
        | Raised e => Raised e
        | Unfinished => Unfinished
        end
  end.

Definition greedy_tsp (rounds fuel : nat) (g : SimpleGraph) (stops : list Z)
  : outcome (list Z * cost) :=
  match stops with
  | first :: (_ :: _) as others =>
      tsp_loop rounds fuel g (list_to_set others) first [first] (Fin 0)
  | _ => Returned (stops, Fin 0)
  end.

(* ===================================================================== *)
(** * parallel.py *)
(* ===================================================================== *)

(** [ParallelProcessor.__init__] stores the pool size it is given. *)
Record ParallelProcessor : Type := mkPP { num_workers : Z }.

Definition process_request (fuel : nat) (g : SimpleGraph) (req : Z * Z)
  : outcome (list Z * cost) :=
  let '(start, end_) := req in a_star fuel g start end_.

(** The list [futures]: one slot per submitted request, in submission
    order.  A slot is [None] until a worker has finished its task. *)
Definition futures : Type := list (option (outcome (list Z * cost))).

(** [executor.submit(process_request, req) for req in requests] *)
Definition submit_all (requests : list (Z * Z)) : futures :=
  replicate (length requests) None.

(** A worker finishes task [i] and stores its outcome in future [i]. *)
Definition complete (fuel : nat) (g : SimpleGraph) (requests : list (Z * Z))
    (fs : futures) (i : nat) : futures :=
  match requests !! i with
  | Some req => <[i := Some (process_request fuel g req)]> fs
  | None => fs
  end.

(** The pool runs the tasks; [schedule] lists the task indices in the
    order in which the workers complete them.  A positive pool size only
    restricts which schedules can occur. *)
Definition run_pool (fuel : nat) (g : SimpleGraph) (requests : list (Z * Z))
    (schedule : list nat) : futures :=
  fold_left (complete fuel g requests) schedule (submit_all requests).

(** [results = [f.result() for f in futures]]: [result()] waits for the
    task, returns its value or re-raises its exception. *)
Fixpoint gather (fs : futures) : outcome (list (list Z * cost)) :=
  match fs with
  | [] => Returned []
  | None :: _ => Unfinished
  | Some (Returned r) :: rest =>
      match gather rest with
      | Returned rs => Returned (r :: rs)
      | Raised e => Raised e
      | Unfinished => Unfinished
      end
  | Some (Raised e) :: _ => Raised e
  | Some Unfinished :: _ => Unfinished
  end.

(** Leaving the [with] block waits for every submitted task
    ([shutdown(wait=True)]); this tells whether that wait ends. *)
Definition all_done (fs : futures) : bool :=
  forallb (λ f, match f with
                | Some (Returned _) | Some (Raised _) => true
                | Some Unfinished | None => false
                end) fs.

(** [ThreadPoolExecutor(max_workers=self.num_workers)] raises
    [ValueError] unless the pool size is positive; this happens on
    entering the [with] block, before any request is submitted. *)
Definition simple_parallel (self : ParallelProcessor) (fuel : nat)
    (schedule : list nat) (g : SimpleGraph) (requests : list (Z * Z))
  : outcome (list (list Z * cost)) :=
  if num_workers self <=? 0 then Raised ValueError
  else
    let fs := run_pool fuel g requests schedule in
    match gather fs with
    | Returned results => Returned results
    | Raised e => if all_done fs then Raised e else Unfinished
    | Unfinished => Unfinished
    end.

(** The reference of the batch: one [a_star] call after the other. *)
Fixpoint sequential (fuel : nat) (g : SimpleGraph) (requests : list (Z * Z))
  : outcome (list (list Z * cost)) :=
  match requests with
  | [] => Returned []
  | (start, end_) :: rest =>
      match a_star fuel g start end_ with
      | Returned r =>
          match sequential fuel g rest with
          | Returned rs => Returned (r :: rs)
          | Raised e => Raised e
          | Unfinished => Unfinished
          end
      | Raised e => Raised e
      | Unfinished => Unfinished
      end
  end.

(** Every submitted task is completed by some worker. *)
Definition fair (schedule : list nat) (n : nat) : Prop :=
  ∀ i, (i < n)%nat → i ∈ schedule.


(** A call was rejected: it raised instead of returning a result. *)
Definition rejected {A : Type} (o : outcome A) : Prop :=
  ∃ e, o = Raised e.

(* ===================================================================== *)
(** * Notions used in the statements *)
(* ===================================================================== *)

Definition nonneg_weights (g : SimpleGraph) : Prop :=
  ∀ u v w, (v, w) ∈ get_neighbors g u → 0 ≤ w.

Definition positive_weights (g : SimpleGraph) : Prop :=
  ∀ u v w, (v, w) ∈ get_neighbors g u → 0 < w.

Definition edge (g : SimpleGraph) (u v : Z) : Prop :=
  ∃ w, (v, w) ∈ get_neighbors g u.

(** [e] can be reached from [s] along adjacency entries. *)
Definition reachable (g : SimpleGraph) (s e : Z) : Prop := rtc (edge g) s e.

(** [path_cost g p c]: consecutive nodes of [p] are joined by edges of [g]
    whose weights add up to [c]. *)
Inductive path_cost (g : SimpleGraph) : list Z → Z → Prop :=
| path_cost_one x : path_cost g [x] 0
| path_cost_cons x y p w c :
    (y, w) ∈ get_neighbors g x →
    path_cost g (y :: p) c →
    path_cost g (x :: y :: p) (w + c).

(** The predecessor map has no cycle: the backward walk from any node
    reaches a node without predecessor. *)
Definition acyclic (prev : gmap Z Z) : Prop :=
  ∀ x, ∃ n path, walk_back n prev x [] = Some path.

(* ===================================================================== *)
(** * The loop invariant of the search *)
(* ===================================================================== *)

Definition key_le (a b : Z * Z) : Prop := a.1 ≤ b.1.

(** The tuple order as a relation. *)
Definition pair_le (a b : Z * Z) : Prop := pair_leb a b = true.

(** [tree_path g start prev dist v p]: [p] runs from [start] to [v] along
    the predecessor map, every step being an edge of [g] that accounts
    for the difference of the recorded distances. *)
Inductive tree_path (g : SimpleGraph) (start : Z) (prev dist : gmap Z Z)
  : Z → list Z → Prop :=
| tree_root :
    prev !! start = None →
    dist !! start = Some 0 →
    tree_path g start prev dist start [start]
| tree_step v u w du p :
    prev !! v = Some u →
    tree_path g start prev dist u p →
    dist !! u = Some du →
    dist !! v = Some (du + w) →
    (v, w) ∈ get_neighbors g u →
    v ∉ p →
    tree_path g start prev dist v (p ++ [v]).

(** [settled] lists the nodes whose neighbours have been relaxed, most
    recent first; [m] is the key popped last; [pend] holds the
    adjacency entries of the head of [settled] that are still to be
    relaxed (empty between two iterations of the [while] loop). *)
Record Inv (g : SimpleGraph) (start end_ : Z) (settled : list Z) (m : Z)
    (pend : list (Z * Z)) (st : dstate) : Prop := mkInv {
  inv_sorted : StronglySorted key_le (pq st);
  inv_nodup : NoDup (pq st);
  inv_lower : ∀ d v, (d, v) ∈ pq st → m ≤ d;
  inv_queued : ∀ d v, (d, v) ∈ pq st →
      ∃ d', distances st !! v = Some d' ∧ d' ≤ d ∧ (v ∈ settled → d' < d);
  inv_done : ∀ u, u ∈ settled →
      u ≠ end_ ∧ ∃ du, distances st !! u = Some du ∧ du ≤ m;
  inv_closed : ∀ u du v w,
      u ∈ settled → distances st !! u = Some du → (v, w) ∈ get_neighbors g u →
      (head settled = Some u ∧ (v, w) ∈ pend) ∨
      (∃ dv, distances st !! v = Some dv ∧ dv ≤ du + w);
  inv_frontier : ∀ v dv, distances st !! v = Some dv →
      v ∈ settled ∨ (dv, v) ∈ pq st;
  inv_tree : ∀ v dv, distances st !! v = Some dv →
      ∃ p, tree_path g start (previous st) (distances st) v p ∧
           ∀ y, y ∈ p → y = v ∨ y ∈ settled;
  inv_prev : ∀ v u, previous st !! v = Some u → is_Some (distances st !! v);
  inv_start : is_Some (distances st !! start)
}.

(** The state in which the search loop ends: the invariant holds just
    before the last test of the loop, where the queue is empty or its
    head is the destination. *)
Definition Final (g : SimpleGraph) (start end_ : Z) (st : dstate) : Prop :=
  ∃ settled m st0,
    Inv g start end_ settled m [] st0 ∧
    distances st = distances st0 ∧ previous st = previous st0 ∧
    (pq st0 = [] ∨ ∃ d rest, pq st0 = (d, end_) :: rest).

(** Adjacency entries not yet relaxed, plus the queue length: the
    measure that bounds the iterations of the search loop. *)
Definition todo (settled : list Z) (e : Z * list (Z * Z)) : nat :=
  if decide (e.1 ∈ settled) then O else length e.2.

Definition work (g : SimpleGraph) (settled : list Z) : nat :=
  sum_list_with (todo settled) (map_to_list (adjacency g)).

(** Fuel that suffices for the search loop of any query on [g]. *)
Definition search_fuel (g : SimpleGraph) : nat := S (S (work g [])).

(** The states of the two searches that correspond to each other. *)
Definition tag (e : Z * Z) : Z * Z * Z := (e.1, e.1, e.2).

Definition sim (a : astate) (d : dstate) : Prop :=
  apq a = map tag (pq d) ∧ g_score a = distances d ∧ aprevious a = previous d.

(** Executable test that every weight of [g] is at least [lo]. *)
Definition weights_from (lo : Z) (g : SimpleGraph) : bool :=
  forallb (λ e : Z * list (Z * Z), forallb (λ nw : Z * Z, lo <=? nw.2) e.2)
          (map_to_list (adjacency g)).

(** The three-node scenario with an isolated fourth node. *)
Definition scenario : SimpleGraph :=
  build [AddNode 0 0.3146 32.5761;
         AddNode 1 0.3191 32.5836;
         AddNode 2 0.3175 32.5800;
         AddEdge 0 1 5; AddEdge 1 2 3;
         AddNode 3 0.3130 32.5780].

(** [create_kampala_graph] of main.py: the fifteen locations, numbered
    in the order of the [locations] dictionary, and the fifteen roads. *)
Definition kampala_locations : list (float * float) :=
  [ (0.3146, 32.5761);   (* Old Taxi Park *)
    (0.3191, 32.5836);   (* Garden City *)
    (0.3175, 32.5800);   (* Nakasero Market *)
    (0.3130, 32.5780);   (* Kisekka Market *)
    (0.3120, 32.5750);   (* Owino Market *)
    (0.3270, 32.5690);   (* Wandegeya *)
    (0.3381, 32.5696);   (* Makerere University *)
    (0.3250, 32.6100);   (* Nakawa *)
    (0.3220, 32.6200);   (* Bugolobi *)
    (0.3170, 32.5820);   (* Kampala Road *)
    (0.3200, 32.5900);   (* Jinja Road *)
    (0.3050, 32.5700);   (* Entebbe Road *)
    (0.3500, 32.5600);   (* Bwaise *)
    (0.3300, 32.6000);   (* Lugogo *)
    (0.3100, 32.5900) ]%float. (* Kabalagala *)

Definition kampala_roads : list (Z * Z * Z) :=
  [ (0, 1, 5); (0, 2, 3); (2, 1, 4); (0, 3, 2); (3, 4, 3); (2, 5, 8);
    (5, 6, 4); (1, 7, 10); (7, 8, 6); (1, 9, 2); (9, 10, 5); (10, 11, 8);
    (6, 12, 12); (7, 13, 4); (1, 14, 7) ].

Definition create_kampala_graph : SimpleGraph :=
  build (imap (λ i pos, AddNode (Z.of_nat i) pos.1 pos.2) kampala_locations
         ++ map (λ r, AddEdge r.1.1 r.1.2 r.2) kampala_roads).

(** A graph with negative travel times in which [0] is reachable from [5]. *)
Definition negative_chain : SimpleGraph :=
  build [AddEdge 5 3 (-1); AddEdge 3 0 (-1)].

(** A graph whose only edge has a negative travel time. *)
Definition negative_edge : SimpleGraph := build [AddEdge 0 1 (-1)].

(** Three roads in a row whose float travel times are summed with
    rounding. *)
Definition rounding_chain : Binary64.adjacency_map :=
  Binary64.add_edge
    (Binary64.add_edge (Binary64.add_edge ∅ 0 1 0.1) 1 2 0.2) 2 3 0.3.


(* ===================================================================== *)
(** * Further notions *)
(* ===================================================================== *)

(** [p] leads from [s] to [e] along edges of [g] whose weights add up
    to [c]. *)
Definition route (g : SimpleGraph) (s e : Z) (p : list Z) (c : Z) : Prop :=
  head p = Some s ∧ last p = Some e ∧ path_cost g p c.

(** The number of entries of all adjacency lists of [g]. *)
Definition adjacency_entries (g : SimpleGraph) : nat :=
  sum_list_with (λ e : Z * list (Z * Z), length e.2)
                (map_to_list (adjacency g)).

(** The spatial index has its ten rows of ten buckets. *)
Definition grid_shape (gr : list (list (list Z))) : Prop :=
  length gr = 10%nat ∧ ∀ row, row ∈ gr → length row = 10%nat.

(** The number of ids held by the spatial index. *)
Definition grid_count (g : SimpleGraph) : nat :=
  sum_list_with (sum_list_with length) (grid g).

(** The bucket an [add_node] call appends to: both conversions return
    and the range test of the guard holds. *)
Definition target (lat lon : float) : option (Z * Z) :=
  match grid_x lat, grid_y lon with
  | Returned x, Returned y => if in_grid x y then Some (x, y) else None
  | _, _ => None
  end.

(** The call is an [add_node] that appends to a bucket. *)
Definition bucketed (o : op) : bool :=
  match o with
  | AddNode _ lat lon => bool_decide (is_Some (target lat lon))
  | AddEdge _ _ _ => false
  end.

Definition is_add_edge (o : op) : bool :=
  match o with
  | AddNode _ _ _ => false
  | AddEdge _ _ _ => true
  end.

(** The ids named by the calls of a history, and those given to
    [add_node]. *)
Definition named (ops : list op) : gset Z :=
  list_to_set (concat (map op_ids ops)).

Definition added (ops : list op) : gset Z :=
  list_to_set (omap (λ o, match o with
                          | AddNode n _ _ => Some n
                          | AddEdge _ _ _ => None
                          end) ops).

(** [legs fuel g tour c]: [c] is the sum of the costs that [a_star]
    returns for the consecutive pairs of stops of [tour]. *)
Inductive legs (fuel : nat) (g : SimpleGraph) : list Z → cost → Prop :=
| legs_one x : legs fuel g [x] (Fin 0)
| legs_snoc tour x y p t c :
    legs fuel g (tour ++ [x]) c →
    a_star fuel g x y = Returned (p, t) →
    legs fuel g ((tour ++ [x]) ++ [y]) (cost_add c t).

(** [nearest_first fuel g current ext]: every stop of [ext] is, among
    the stops from it onwards, one that [a_star] finds nearest to the
    stop before it ([current] for the first). *)
Inductive nearest_first (fuel : nat) (g : SimpleGraph) : Z → list Z → Prop :=
| nearest_first_nil current : nearest_first fuel g current []
| nearest_first_cons current x ext :
    (∀ z, z ∈ x :: ext →
       ∃ px tx pz tz, a_star fuel g current x = Returned (px, tx) ∧
                      a_star fuel g current z = Returned (pz, tz) ∧
                      cost_lt tz tx = false) →
    nearest_first fuel g x ext →
    nearest_first fuel g current (x :: ext).

(** The scan variables are unset, or hold a stop and its finite cost. *)
Definition scan_state (nearest : option Z) (min_time : cost) : Prop :=
  match nearest, min_time with
  | None, Inf => True
  | Some _, Fin _ => True
  | _, _ => False
  end.

(* ===================================================================== *)
(** * main.py: the route endpoint *)
(* ===================================================================== *)

(** The module-level instance [graph, locations = create_kampala_graph()]. *)
Definition graph : SimpleGraph := create_kampala_graph.

(** [list(locations.keys())] *)
Definition location_names : list string :=
  [ "Old Taxi Park"; "Garden City"; "Nakasero Market"; "Kisekka Market";
    "Owino Market"; "Wandegeya"; "Makerere University"; "Nakawa";
    "Bugolobi"; "Kampala Road"; "Jinja Road"; "Entebbe Road"; "Bwaise";
    "Lugogo"; "Kabalagala" ]%string.

(** Python's [l[i]]: a negative index counts from the end of the list;
    [None] stands for the [IndexError] of an index out of range. *)
Definition py_index {A : Type} (l : list A) (i : Z) : option A :=
  if 0 <=? i then l !! Z.to_nat i
  else if - Z.of_nat (length l) <=? i
       then l !! Z.to_nat (Z.of_nat (length l) + i)
       else None.

(** The dictionary returned by [calculate_route].  [RouteFailure e] is
    [{"success": False, "error": str(e)}] for the exception [e] caught.
    [round(time, 2)] leaves an integer and [inf] as they are. *)
Inductive route_response : Type :=
| RouteSuccess (path : list Z) (path_names : list string) (time : cost)
               (algorithm : string) (distance : Z)
| RouteFailure (error : exn).

(** [calculate_route(start, end, algorithm)]: the [try] block, and the
    [except] clause that turns an exception into a failure response. *)
Definition calculate_route (fuel : nat) (start end_ : Z) (algorithm : string)
  : outcome route_response :=
  let found :=
    if String.eqb algorithm "dijkstra"
    then dijkstra fuel graph start end_
    else a_star fuel graph start end_ in
  match found with
  | Returned (path, time) =>
      match mapM (py_index location_names) path with
      | Some path_names =>
          Returned (RouteSuccess path path_names time algorithm
                                 (Z.of_nat (length path) - 1))
      | None => Returned (RouteFailure IndexError)
      end
  | Raised e => Returned (RouteFailure e)
  | Unfinished => Unfinished
  end.

(** Executable test that every key of the adjacency map of [g] lies in
    [0, n). *)
Definition keys_below (n : Z) (g : SimpleGraph) : bool :=
  forallb (λ e : Z * list (Z * Z), (0 <=? e.1) && (e.1 <? n))
          (map_to_list (adjacency g)).

(** Executable test that every neighbour id of [g] lies in [0, n). *)
Definition targets_below (n : Z) (g : SimpleGraph) : bool :=
  forallb (λ e : Z * list (Z * Z),
             forallb (λ nw : Z * Z, (0 <=? nw.1) && (nw.1 <? n)) e.2)
          (map_to_list (adjacency g)).

(* ===================================================================== *)
(** * Properties of the graph store *)
(* ===================================================================== *)

Section GraphStore.

Implicit Types (g : SimpleGraph) (a b n w : Z).

Lemma get_neighbors_add_node g n lat lon x :
  get_neighbors (add_node g n lat lon) x =
  if decide (n = x) then [] else get_neighbors g x.
Proof.
  unfold get_neighbors, add_node; simpl.
  rewrite lookup_insert. by case_decide.
Qed.

Lemma lookup_ensure n adj x :
  default [] (ensure n adj !! x) = default [] (adj !! x).
Proof.
  unfold ensure. destruct (adj !! n) eqn:E; [done|].
  destruct (decide (n = x)) as [->|Hne].
  - by rewrite lookup_insert_eq, E.
  - by rewrite lookup_insert_ne.
Qed.

Lemma ensure_is_Some n adj : is_Some (ensure n adj !! n).
Proof.
  unfold ensure. destruct (adj !! n) eqn:E.
  - rewrite E. eauto.
  - rewrite lookup_insert_eq. eauto.
Qed.

Lemma ensure_mono n adj x : is_Some (adj !! x) → is_Some (ensure n adj !! x).
Proof.
  unfold ensure. destruct (adj !! n) eqn:E; [done|].
  intros Hx. destruct (decide (n = x)) as [->|Hne].
  - rewrite lookup_insert_eq. eauto.
  - by rewrite lookup_insert_ne.
Qed.

(** The adjacency list of every node after [add_edge]. *)
Lemma get_neighbors_add_edge g a b w x :
  get_neighbors (add_edge g a b w) x =
  get_neighbors g x ++ (if decide (a = x) then [(b, w)] else [])
                    ++ (if decide (b = x) then [(a, w)] else []).
Proof.
  unfold get_neighbors, add_edge; simpl.
  pose proof (ensure_mono b _ _ (ensure_is_Some a (adjacency g))) as Ha.
  pose proof (ensure_is_Some b (ensure a (adjacency g))) as Hb.
  rewrite <- (lookup_ensure a (adjacency g) x).
  rewrite <- (lookup_ensure b (ensure a (adjacency g)) x).
  set (m := ensure b (ensure a (adjacency g))) in *.
  destruct (decide (a = x)) as [->|Hax], (decide (b = x)) as [->|Hbx]; simpl.
  - rewrite !lookup_alter_eq. destruct Ha as [l Hl]. rewrite Hl. simpl.
    by rewrite <- app_assoc.
  - rewrite lookup_alter_ne by done. rewrite lookup_alter_eq.
    destruct Ha as [l Hl]. by rewrite Hl.
  - rewrite lookup_alter_eq. rewrite lookup_alter_ne by done.
    destruct Hb as [l Hl]. by rewrite Hl.
  - rewrite !lookup_alter_ne by done. by rewrite app_nil_r.
Qed.

Lemma get_neighbors_empty n : get_neighbors empty n = [].
Proof. unfold get_neighbors, empty; simpl. by rewrite lookup_empty. Qed.

Lemma get_neighbors_apply_other g o n :
  n ∉ op_ids o → get_neighbors (apply_op g o) n = get_neighbors g n.
Proof.
  destruct o as [k lat lon|x y t]; simpl; intros Hn.
  - rewrite get_neighbors_add_node. case_decide; [|done].
    subst. exfalso. apply Hn. by left.
  - rewrite get_neighbors_add_edge.
    rewrite !decide_False, !app_nil_r; [done| |].
    + intros ->. apply Hn. right. by left.
    + intros ->. apply Hn. by left.
Qed.

Lemma get_neighbors_run_other ops : ∀ g n,
  (∀ o, o ∈ ops → n ∉ op_ids o) →
  get_neighbors (run ops g) n = get_neighbors g n.
Proof.
  induction ops as [|o ops IH]; intros g n Hn; [done|].
  unfold run; simpl. fold (run ops (apply_op g o)).
  rewrite IH.
  - apply get_neighbors_apply_other, Hn. by left.
  - intros o' Ho'. apply Hn. by right.
Qed.

(** C5: right after [add_edge(a, b, w)] the entry [(b, w)] is among the
    neighbours of [a] and [(a, w)] among those of [b]; a node id that no
    [add_node] or [add_edge] call of the history names has the empty
    neighbour list (the call returns, it cannot fail). *)
Theorem add_edge_neighbors_unknown_empty :
  (∀ g a b w,
     (b, w) ∈ get_neighbors (add_edge g a b w) a ∧
     (a, w) ∈ get_neighbors (add_edge g a b w) b) ∧
  (∀ ops n, (∀ o, o ∈ ops → n ∉ op_ids o) → get_neighbors (build ops) n = []).
Proof.
  split.
  - intros g a b w. rewrite !get_neighbors_add_edge.
    split; rewrite !elem_of_app.
    + right. left. rewrite decide_True by done. by left.
    + right. right. rewrite (decide_True (P := b = b)) by done. by left.
  - intros ops n Hn. unfold build.
    rewrite get_neighbors_run_other by done. apply get_neighbors_empty.
Qed.

Lemma add_edge_neighbors_unknown_empty_witness :
  get_neighbors
    (build [AddNode 0 0.3146 32.5761; AddEdge 0 1 5]) 9 = [].
Proof.
  apply (proj2 add_edge_neighbors_unknown_empty).
  intros o Ho.
  apply elem_of_cons in Ho as [->|Ho]; [|apply elem_of_cons in Ho as [->|Ho]].
  - simpl. rewrite list_elem_of_singleton. lia.
  - simpl. rewrite !elem_of_cons, elem_of_nil. lia.
  - by apply elem_of_nil in Ho.
Defined.

Lemma symmetric_empty : symmetric empty.
Proof. intros a b w. rewrite get_neighbors_empty. by intros ?%elem_of_nil. Qed.

(** [add_edge] keeps the adjacency symmetric, in every state. *)
Lemma symmetric_add_edge g x y t : symmetric g → symmetric (add_edge g x y t).
Proof.
  intros Hs a b w. rewrite !get_neighbors_add_edge, !elem_of_app.
  intros [H|[H|H]].
  - left. by apply Hs.
  - case_decide; [|by apply elem_of_nil in H].
    apply list_elem_of_singleton in H. simplify_eq.
    right. right. rewrite decide_True by done. by left.
  - case_decide; [|by apply elem_of_nil in H].
    apply list_elem_of_singleton in H. simplify_eq.
    right. left. rewrite decide_True by done. by left.
Qed.

(** [add_node] keeps it symmetric when the node carries no edge yet. *)
Lemma symmetric_add_node g n lat lon :
  get_neighbors g n = [] → symmetric g → symmetric (add_node g n lat lon).
Proof.
  intros Hn Hs a b w. rewrite !get_neighbors_add_node.
  case_decide; [by intros ?%elem_of_nil|].
  intros Hab. case_decide; [|by apply Hs].
  subst. apply Hs in Hab. rewrite Hn in Hab. by apply elem_of_nil in Hab.
Qed.

Lemma symmetric_run ops : ∀ g,
  nodes_before_edges g ops → symmetric g → symmetric (run ops g).
Proof.
  induction ops as [|o ops IH]; intros g Hops Hs; [done|].
  destruct Hops as [Ho Hops].
  unfold run; simpl. fold (run ops (apply_op g o)).
  apply IH; [done|].
  destruct o; simpl; [by apply symmetric_add_node | by apply symmetric_add_edge].
Qed.

(** C4, as stated, fails: re-inserting node [0] after the edge [(0, 1, 5)]
    empties the neighbours of [0] while [1] still lists [0]. *)
Lemma reinsertion_breaks_symmetry :
  ¬ symmetric (build [AddNode 0 0.3146 32.5761;
                      AddNode 1 0.3191 32.5836;
                      AddEdge 0 1 5;
                      AddNode 0 0.3146 32.5761]).
Proof.
  intros Hs. specialize (Hs 1 0 5).
  assert (H : (0, 5) ∈ [(0, 5)]) by by left.
  apply Hs in H. by apply elem_of_nil in H.
Qed.

(** C4 (amended): a history in which every [add_node] is applied to an id
    that has no adjacency entries at that moment (a fresh id, or one
    re-inserted before any edge touches it) yields a symmetric adjacency
    structure; [add_edge] preserves symmetry in every state. *)
Theorem symmetric_build ops :
  nodes_before_edges empty ops → symmetric (build ops).
Proof. intros Hops. apply symmetric_run; [done | apply symmetric_empty]. Qed.

Lemma symmetric_build_witness :
  symmetric (build [AddNode 0 0.3146 32.5761;
                    AddNode 1 0.3191 32.5836;
                    AddEdge 0 1 5;
                    AddNode 2 0.3175 32.5800;
                    AddEdge 1 2 3]).
Proof. apply symmetric_build. simpl. repeat split; reflexivity. Defined.

(** [add_node] registers the node in both maps wherever it lies. *)
Lemma add_node_registers g n lat lon :
  adjacency (add_node g n lat lon) !! n = Some [] ∧
  positions (add_node g n lat lon) !! n = Some (lat, lon).
Proof. unfold add_node; simpl. by rewrite !lookup_insert_eq. Qed.

(** On a float that is not below zero [int] is the floor. *)
Lemma py_int_nonneg x : (0 <=? x)%float = true → py_int x = py_floor x.
Proof.
  rewrite leb_spec. unfold py_int, py_floor.
  destruct (Prim2SF x) as [s|s| |s m e]; [done..|].
  destruct s; [|done]. by vm_compute.
Qed.

(** Where neither transform is below zero, that is at or above the lower
    corner of the box, the cell computed by [add_node] is the floor
    cell. *)
Lemma grid_cell_floor lat lon :
  (0 <=? (lat - 0.3) * 20)%float = true →
  (0 <=? (lon - 32.5) * 20)%float = true →
  (grid_x lat, grid_y lon) = floor_cell lat lon.
Proof.
  intros Hlat Hlon. unfold grid_x, grid_y, floor_cell.
  by rewrite !py_int_nonneg.
Qed.

(** C8 (defect): latitude [0.27] lies below the box, the floor of the
    transform is row [-1], yet [int] truncates [-0.5999999999999994] to
    [0] and the node lands in bucket [(0, 2)]. *)
Lemma add_node_truncation_buckets_outside_node :
  floor_cell 0.27 32.6 = (Returned (-1), Returned 2) ∧
  bucket (add_node empty 7 0.27 32.6) 0 2 = [7].
Proof. split; reflexivity. Qed.

End GraphStore.

(* ===================================================================== *)
(** * The priority queue *)
(* ===================================================================== *)

Section Queue.

Lemma pair_leb_key a b : pair_leb a b = true → key_le a b.
Proof. unfold pair_leb, key_le. destruct a, b; simpl. lia. Qed.

Lemma pair_leb_key_flip a b : pair_leb a b = false → key_le b a.
Proof. unfold pair_leb, key_le. destruct a, b; simpl. lia. Qed.

Lemma heappush_perm x h : heappush pair_leb x h ≡ₚ x :: h.
Proof.
  induction h as [|y t IH]; simpl; [done|].
  destruct (pair_leb x y); [done|].
  rewrite IH. apply Permutation_swap.
Qed.

Lemma elem_of_heappush x y h : y ∈ heappush pair_leb x h ↔ y = x ∨ y ∈ h.
Proof. rewrite heappush_perm. apply elem_of_cons. Qed.

Lemma length_heappush x h : length (heappush pair_leb x h) = S (length h).
Proof. by rewrite heappush_perm. Qed.

Lemma heappush_nodup x h : x ∉ h → NoDup h → NoDup (heappush pair_leb x h).
Proof. intros Hx Hh. rewrite heappush_perm. by constructor. Qed.

Lemma heappush_sorted x h :
  StronglySorted key_le h → StronglySorted key_le (heappush pair_leb x h).
Proof.
  induction 1 as [|y t Ht IH Hy]; simpl.
  - repeat constructor.
  - destruct (pair_leb x y) eqn:E.
    + constructor; [by constructor|].
      apply pair_leb_key in E. constructor; [done|].
      eapply Forall_impl; [exact Hy|].
      intros z Hz. unfold key_le in *. lia.
    + constructor; [done|].
      apply pair_leb_key_flip in E.
      apply Forall_forall. intros z Hz.
      apply elem_of_heappush in Hz as [->|Hz]; [done|].
      rewrite Forall_forall in Hy. by apply Hy.
Qed.

Lemma pair_le_trans a b c : pair_le a b → pair_le b c → pair_le a c.
Proof. unfold pair_le, pair_leb. destruct a, b, c; simpl. lia. Qed.

Lemma pair_le_total a b : pair_leb a b = false → pair_le b a.
Proof. unfold pair_le, pair_leb. destruct a, b; simpl. lia. Qed.

(** Pushing keeps the queue sorted by the tuple order, so that the head
    taken by [heappop] is a least entry, as with [heapq]. *)
Lemma heappush_lex_sorted x h :
  StronglySorted pair_le h → StronglySorted pair_le (heappush pair_leb x h).
Proof.
  induction 1 as [|y t Ht IH Hy]; simpl.
  - repeat constructor.
  - destruct (pair_leb x y) eqn:E.
    + constructor; [by constructor|].
      constructor; [done|].
      eapply Forall_impl; [exact Hy|].
      intros z Hz. by eapply pair_le_trans.
    + constructor; [done|].
      apply pair_le_total in E.
      apply Forall_forall. intros z Hz.
      apply elem_of_heappush in Hz as [->|Hz]; [done|].
      rewrite Forall_forall in Hy. by apply Hy.
Qed.

Lemma heappop_least x rest (h : list (Z * Z)) :
  StronglySorted pair_le h → heappop h = Some (x, rest) →
  StronglySorted pair_le rest ∧ ∀ y, y ∈ h → pair_le x y.
Proof.
  intros Hs Hp. destruct h as [|x' h]; [done|]. simpl in Hp. simplify_eq.
  apply StronglySorted_inv in Hs as [Hs Hx]. split; [done|].
  intros y [->|Hy]%elem_of_cons.
  - unfold pair_le, pair_leb. destruct x; simpl. lia.
  - rewrite Forall_forall in Hx. by apply Hx.
Qed.

Lemma triple_leb_tag a b : triple_leb (tag a) (tag b) = pair_leb a b.
Proof.
  destruct a as [d u], b as [d' u']. unfold triple_leb, pair_leb, tag; simpl.
  destruct (Z.ltb_spec d d'), (Z.eqb_spec d d'); simpl; try reflexivity; lia.
Qed.

Lemma heappush_tag x h :
  heappush triple_leb (tag x) (map tag h) = map tag (heappush pair_leb x h).
Proof.
  induction h as [|y t IH]; simpl; [done|].
  rewrite triple_leb_tag. destruct (pair_leb x y); simpl; [done|].
  by rewrite IH.
Qed.

End Queue.

(* ===================================================================== *)
(** * A* with the zero heuristic runs the search of Dijkstra *)
(* ===================================================================== *)

Section Simulation.

Variable g : SimpleGraph.

Lemma sim_relax a d cur cd e :
  sim a d → sim (a_relax cur cd a e) (relax cur cd d e).
Proof.
  intros (Hq & Hg & Hp). destruct e as [v w]. unfold a_relax, relax.
  rewrite Hg. destruct (cost_lt _ _); [|done].
  split_and!; simpl; [|done|by rewrite Hp].
  rewrite Hq. apply (heappush_tag (cd + w, v)).
Qed.

Lemma sim_fold l : ∀ a d cur cd,
  sim a d →
  sim (fold_left (a_relax cur cd) l a) (fold_left (relax cur cd) l d).
Proof.
  induction l as [|e l IH]; intros a d cur cd H; simpl; [done|].
  apply IH. by apply sim_relax.
Qed.

Lemma sim_loop end_ fuel : ∀ a d,
  sim a d →
  match a_star_loop fuel g end_ a, dijkstra_loop fuel g end_ d with
  | Some a', Some d' => sim a' d'
  | None, None => True
  | _, _ => False
  end.
Proof.
  induction fuel as [|fuel IH]; intros a d H; simpl; [done|].
  destruct H as (Hq & Hg & Hp).
  destruct (pq d) as [|[cd cur] rest] eqn:Ed; rewrite Hq; simpl.
  - unfold sim. by rewrite Ed.
  - case_decide; [done|].
    rewrite Hg. destruct (cost_lt _ _).
    + by apply IH.
    + apply IH. by apply sim_fold.
Qed.

Lemma sim_init start : sim (a_star_init start) (dijkstra_init start).
Proof. done. Qed.

(** With the zero heuristic the two procedures are the same function. *)
Lemma a_star_dijkstra fuel start end_ :
  a_star fuel g start end_ = dijkstra fuel g start end_.
Proof.
  unfold a_star, dijkstra, a_star_search, dijkstra_search.
  pose proof (sim_loop end_ fuel _ _ (sim_init start)) as H.
  destruct (a_star_loop _ _ _ _) as [a|], (dijkstra_loop _ _ _ _) as [d|];
    try done.
  destruct H as (_ & Hg & Hp). by rewrite Hg, Hp.
Qed.

End Simulation.

(* ===================================================================== *)
(** * More fuel does not change a result *)
(* ===================================================================== *)

Section Fuel.

Variable g : SimpleGraph.

Lemma dijkstra_loop_mono end_ n : ∀ m st r,
  (n ≤ m)%nat → dijkstra_loop n g end_ st = Some r →
  dijkstra_loop m g end_ st = Some r.
Proof.
  induction n as [|n IH]; intros m st r Hle H; [done|].
  destruct m as [|m]; [lia|]. simpl in *.
  destruct (pq st) as [|[cd cur] rest]; simpl in *; [done|].
  case_decide; [done|].
  destruct (cost_lt _ _); apply IH; (lia || done).
Qed.

Lemma walk_back_mono prev n : ∀ m cur path r,
  (n ≤ m)%nat → walk_back n prev cur path = Some r →
  walk_back m prev cur path = Some r.
Proof.
  induction n as [|n IH]; intros m cur path r Hle H; [done|].
  destruct m as [|m]; [lia|]. simpl in *.
  destruct (prev !! cur); [|done]. apply IH; (lia || done).
Qed.

Lemma dijkstra_mono n m start end_ r :
  (n ≤ m)%nat → dijkstra n g start end_ = Returned r →
  dijkstra m g start end_ = Returned r.
Proof.
  unfold dijkstra, dijkstra_search. intros Hle H.
  destruct (dijkstra_loop n _ _ _) as [st|] eqn:E1; [|done].
  destruct (walk_back n _ _ _) as [p|] eqn:E2; [|done].
  rewrite (dijkstra_loop_mono _ _ _ _ _ Hle E1).
  by rewrite (walk_back_mono _ _ _ _ _ _ Hle E2).
Qed.

Lemma a_star_mono n m start end_ r :
  (n ≤ m)%nat → a_star n g start end_ = Returned r →
  a_star m g start end_ = Returned r.
Proof. rewrite !a_star_dijkstra. apply dijkstra_mono. Qed.

(** Neither procedure has a path on which it raises. *)
Lemma dijkstra_not_raised n start end_ e : dijkstra n g start end_ ≠ Raised e.
Proof.
  unfold dijkstra. destruct (dijkstra_search _ _ _ _); [|done].
  by destruct (walk_back _ _ _ _).
Qed.

Lemma a_star_not_raised n start end_ e : a_star n g start end_ ≠ Raised e.
Proof. rewrite a_star_dijkstra. apply dijkstra_not_raised. Qed.

End Fuel.

(* ===================================================================== *)
(** * Paths along the predecessor map *)
(* ===================================================================== *)

Section TreePaths.

Variables (g : SimpleGraph) (start : Z).

Lemma path_cost_snoc p : ∀ c u v w,
  path_cost g p c → last p = Some u → (v, w) ∈ get_neighbors g u →
  path_cost g (p ++ [v]) (c + w).
Proof.
  intros c u v w H. revert u. induction H as [x|x y p w' c Hxy Hp IH];
    intros u Hl Huv.
  - simpl in Hl. simplify_eq. simpl.
    replace (0 + w) with (w + 0) by lia. constructor; [done|constructor].
  - replace (w' + c + w) with (w' + (c + w)) by lia.
    simpl. constructor; [done|]. apply (IH u); [|done].
    by rewrite last_cons_cons in Hl.
Qed.

(** Without parallel edges of different weight a path has one cost. *)
Lemma path_cost_unique p : ∀ c c',
  (∀ u v w w', (v, w) ∈ get_neighbors g u → (v, w') ∈ get_neighbors g u →
               w = w') →
  path_cost g p c → path_cost g p c' → c = c'.
Proof.
  intros c c' Hone H. revert c'.
  induction H as [x|x y p w c Hxy Hp IH]; intros c' H'; inversion H'; subst.
  - done.
  - f_equal; [by eapply Hone|by apply IH].
Qed.

Lemma tree_path_elem prev dist x p : tree_path g start prev dist x p → x ∈ p.
Proof.
  destruct 1; [by left|]. apply elem_of_app. right. by left.
Qed.

Lemma tree_path_head prev dist x p :
  tree_path g start prev dist x p → head p = Some start.
Proof.
  induction 1 as [|v u w du p Hp Hu IH]; [done|].
  destruct p; [done|]. done.
Qed.

Lemma tree_path_last prev dist x p :
  tree_path g start prev dist x p → last p = Some x.
Proof. destruct 1; [done|]. apply last_snoc. Qed.

Lemma tree_path_nodup prev dist x p :
  tree_path g start prev dist x p → NoDup p.
Proof.
  induction 1 as [|v u w du p Hp Hu IH]; [apply NoDup_singleton|].
  apply NoDup_app. split_and!; [done| |apply NoDup_singleton].
  intros y Hy ->%list_elem_of_singleton. done.
Qed.

Lemma tree_path_cost prev dist x p :
  tree_path g start prev dist x p →
  ∃ d, dist !! x = Some d ∧ path_cost g p d.
Proof.
  induction 1 as [|v u w du p Hp Hu IH Hdu Hdv Hvw Hv].
  - exists 0. split; [done|constructor].
  - exists (du + w). split; [done|].
    destruct IH as (d & Hd & Hc). simplify_eq.
    eapply path_cost_snoc; [done| |done]. by eapply tree_path_last.
Qed.

Lemma tree_path_reachable prev dist x p :
  tree_path g start prev dist x p → reachable g start x.
Proof.
  induction 1 as [|v u w du p Hp Hu IH Hdu Hdv Hvw Hv]; [apply rtc_refl|].
  eapply rtc_r; [exact IH|]. by exists w.
Qed.

(** The backward walk retraces a tree path and stops at [start]. *)
Lemma tree_path_walk prev dist x p :
  tree_path g start prev dist x p →
  ∀ n acc, (length p ≤ n)%nat →
    walk_back n prev x acc = Some (acc ++ rev (tail p)).
Proof.
  induction 1 as [Hs|v u w du p Hp Hu IH Hdu Hdv Hvw Hv]; intros n acc Hn.
  - destruct n as [|n]; [simpl in Hn; lia|]. simpl. rewrite Hs.
    by rewrite app_nil_r.
  - rewrite length_app in Hn. simpl in Hn.
    destruct n as [|n]; [lia|]. simpl. rewrite Hp.
    rewrite IH by lia.
    pose proof (tree_path_head _ _ _ _ Hu) as Hh.
    destruct p as [|s q]; [done|]. simpl.
    rewrite rev_app_distr. simpl. by rewrite <- app_assoc.
Qed.

Lemma tree_path_rev_walk prev dist x p :
  tree_path g start prev dist x p → rev (rev (tail p) ++ [start]) = p.
Proof.
  intros H. pose proof (tree_path_head _ _ _ _ H) as Hh.
  destruct p as [|s q]; [done|]. simpl in *. simplify_eq.
  rewrite rev_app_distr. simpl. by rewrite rev_involutive.
Qed.

(** Re-assigning a node that is not on a tree path leaves the path intact. *)
Lemma tree_path_update prev dist x p v u d :
  tree_path g start prev dist x p → v ∉ p →
  tree_path g start (<[v := u]> prev) (<[v := d]> dist) x p.
Proof.
  induction 1 as [Hs Hd|y z w du p Hp Hz IH Hdz Hdy Hyw Hy]; intros Hv.
  - apply not_elem_of_cons in Hv as [Hv _].
    constructor; by rewrite lookup_insert_ne.
  - apply not_elem_of_app in Hv as [Hv1 Hv2].
    apply not_elem_of_cons in Hv2 as [Hv2 _].
    assert (v ≠ z) by (intros ->; apply Hv1; by eapply tree_path_elem).
    eapply tree_step; rewrite ?lookup_insert_ne by done; eauto.
Qed.

End TreePaths.

(* ===================================================================== *)
(** * The search loop keeps its invariant *)
(* ===================================================================== *)

Section Search.

Variables (g : SimpleGraph) (start end_ : Z).
Hypothesis weights : nonneg_weights g.

Lemma inv_init : Inv g start end_ [] 0 [] (dijkstra_init start).
Proof.
  constructor; simpl.
  - repeat constructor.
  - apply NoDup_singleton.
  - intros d v Hv%list_elem_of_singleton. simplify_eq. lia.
  - intros d v Hv%list_elem_of_singleton. simplify_eq.
    exists 0. rewrite lookup_singleton_eq. split_and!; [done|lia|].
    by intros ?%elem_of_nil.
  - by intros u ?%elem_of_nil.
  - by intros u du v w ?%elem_of_nil.
  - intros v dv Hv. apply lookup_singleton_Some in Hv as [<- <-].
    right. by left.
  - intros v dv Hv. apply lookup_singleton_Some in Hv as [<- <-].
    exists [start]. split.
    + constructor; [apply lookup_empty|apply lookup_singleton_eq].
    + intros y ->%list_elem_of_singleton. by left.
  - intros v u. by rewrite lookup_empty.
  - rewrite lookup_singleton_eq. eauto.
Qed.

(** One pass of the neighbour loop. *)
Lemma relax_inv u0 d0 settled v w pend st :
  Inv g start end_ (u0 :: settled) d0 ((v, w) :: pend) st →
  distances st !! u0 = Some d0 →
  (v, w) ∈ get_neighbors g u0 →
  Inv g start end_ (u0 :: settled) d0 pend (relax u0 d0 st (v, w)) ∧
  distances (relax u0 d0 st (v, w)) !! u0 = Some d0 ∧
  (length (pq (relax u0 d0 st (v, w))) ≤ S (length (pq st)))%nat.
Proof.
  intros [Hsort Hnd Hlow Hq Hdone Hcl Hfr Htree Hprev Hst] Hu0 Hvw.
  pose proof (weights _ _ _ Hvw) as Hw.
  unfold relax.
  destruct (cost_lt (Fin (d0 + w)) (get_inf (distances st) v)) eqn:Hlt.
  - (* the entry improves on the recorded distance of [v] *)
    assert (Hold : ∀ dv, distances st !! v = Some dv → d0 + w < dv).
    { intros dv Hdv. unfold get_inf in Hlt. rewrite Hdv in Hlt.
      simpl in Hlt. lia. }
    assert (Hv : v ∉ u0 :: settled).
    { intros Hin. destruct (Hdone _ Hin) as (_ & du & Hdu & Hle).
      specialize (Hold _ Hdu). lia. }
    assert (Hvu : v ≠ u0) by (intros ->; apply Hv; by left).
    split_and!; simpl.
    2: by rewrite lookup_insert_ne.
    2: by rewrite length_heappush.
    constructor; simpl.
    + by apply heappush_sorted.
    + apply heappush_nodup; [|done].
      intros Hin. destruct (Hq _ _ Hin) as (d' & Hd' & Hle & _).
      specialize (Hold _ Hd'). lia.
    + intros d x [Hx|Hx]%elem_of_heappush; [simplify_eq; lia|eauto].
    + intros d x [Hx|Hx]%elem_of_heappush.
      * simplify_eq. exists (d0 + w). rewrite lookup_insert_eq.
        split_and!; [done|lia|done].
      * destruct (Hq _ _ Hx) as (d' & Hd' & Hle & Hs).
        destruct (decide (x = v)) as [->|Hne].
        -- exists (d0 + w). rewrite lookup_insert_eq.
           specialize (Hold _ Hd'). split_and!; [done|lia|done].
        -- exists d'. by rewrite lookup_insert_ne.
    + intros u Hu. destruct (Hdone _ Hu) as (Hne & du & Hdu & Hle).
      split; [done|]. exists du. split; [|done].
      rewrite lookup_insert_ne; [done|]. by intros ->.
    + intros u du x w' Hu Hdu Hx.
      assert (Huv : v ≠ u) by by intros ->.
      rewrite lookup_insert_ne in Hdu by done.
      destruct (Hcl _ _ _ _ Hu Hdu Hx) as [[Hh Hp]|(dx & Hdx & Hle)].
      * apply elem_of_cons in Hp as [Hp|Hp]; [|by left].
        right. simpl in Hh. simplify_eq.
        exists (d0 + w). by rewrite lookup_insert_eq.
      * right. destruct (decide (x = v)) as [->|Hne].
        -- exists (d0 + w). rewrite lookup_insert_eq.
           specialize (Hold _ Hdx). split; [done|lia].
        -- exists dx. by rewrite lookup_insert_ne.
    + intros x dx Hx. destruct (decide (x = v)) as [->|Hne].
      * rewrite lookup_insert_eq in Hx. simplify_eq.
        right. apply elem_of_heappush. by left.
      * rewrite lookup_insert_ne in Hx by done.
        destruct (Hfr _ _ Hx) as [?|?]; [by left|].
        right. apply elem_of_heappush. by right.
    + intros x dx Hx. destruct (decide (x = v)) as [->|Hne].
      * destruct (Htree _ _ Hu0) as (p0 & Hp0 & Hin0).
        assert (Hvp0 : v ∉ p0).
        { intros Hin. destruct (Hin0 _ Hin) as [->|?]; [done|].
          by apply Hv. }
        exists (p0 ++ [v]). split.
        -- eapply tree_step; [apply lookup_insert_eq| | | |exact Hvw|done].
           ++ by apply tree_path_update.
           ++ by rewrite lookup_insert_ne.
           ++ by rewrite lookup_insert_eq.
        -- intros y [Hy|Hy]%elem_of_app.
           ++ right. destruct (Hin0 _ Hy) as [->|?]; [by left|done].
           ++ left. by apply list_elem_of_singleton in Hy.
      * rewrite lookup_insert_ne in Hx by done.
        destruct (Htree _ _ Hx) as (p & Hp & Hin).
        exists p. split; [|done]. apply tree_path_update; [done|].
        intros Hvp. destruct (Hin _ Hvp) as [->|?]; [done|]. by apply Hv.
    + intros x u. destruct (decide (x = v)) as [->|Hne].
      * rewrite !lookup_insert_eq. eauto.
      * rewrite !lookup_insert_ne by done. eauto.
    + destruct (decide (start = v)) as [->|Hne].
      * rewrite lookup_insert_eq. eauto.
      * by rewrite lookup_insert_ne.
  - (* the recorded distance of [v] is at least as good *)
    assert (Hv : ∃ dv, distances st !! v = Some dv ∧ dv ≤ d0 + w).
    { unfold get_inf in Hlt. destruct (distances st !! v) as [dv|]; [|done].
      exists dv. simpl in Hlt. split; [done|lia]. }
    split_and!; [|done|lia].
    constructor; try done.
    intros u du x w' Hu Hdu Hx.
    destruct (Hcl _ _ _ _ Hu Hdu Hx) as [[Hh Hp]|?]; [|by right].
    apply elem_of_cons in Hp as [Hp|Hp]; [|by left].
    right. simpl in Hh. simplify_eq. done.
Qed.

(** The whole neighbour loop. *)
Lemma relax_all_inv u0 d0 settled pend : ∀ st,
  Inv g start end_ (u0 :: settled) d0 pend st →
  distances st !! u0 = Some d0 →
  (∀ e, e ∈ pend → e ∈ get_neighbors g u0) →
  Inv g start end_ (u0 :: settled) d0 []
      (fold_left (relax u0 d0) pend st) ∧
  (length (pq (fold_left (relax u0 d0) pend st))
     ≤ length (pq st) + length pend)%nat.
Proof.
  induction pend as [|[v w] pend IH]; intros st Hinv Hu0 Hsub.
  - simpl. split; [done|lia].
  - destruct (relax_inv _ _ _ _ _ _ _ Hinv Hu0) as (Hinv' & Hu0' & Hlen).
    { apply Hsub. by left. }
    destruct (IH _ Hinv' Hu0') as [Hfin Hlen'].
    { intros e He. apply Hsub. by right. }
    cbn [fold_left length]. split; [exact Hfin|lia].
Qed.

(** Popping an entry that is out of date. *)
Lemma pop_stale settled m st d0 u0 rest :
  Inv g start end_ settled m [] st →
  pq st = (d0, u0) :: rest →
  cost_lt (get_inf (distances st) u0) (Fin d0) = true →
  Inv g start end_ settled m []
      {| pq := rest; distances := distances st; previous := previous st |}.
Proof.
  intros [Hsort Hnd Hlow Hq Hdone Hcl Hfr Htree Hprev Hst] Hpq Hlt.
  rewrite Hpq in *.
  constructor; simpl; try done.
  - by inversion Hsort.
  - by inversion Hnd.
  - intros d v Hv. apply (Hlow d v). by right.
  - intros d v Hv. apply (Hq d v). by right.
  - intros v dv Hv. destruct (Hfr _ _ Hv) as [?|Hin]; [by left|].
    apply elem_of_cons in Hin as [Hin|Hin]; [|by right].
    simplify_eq. unfold get_inf in Hlt. rewrite Hv in Hlt. simpl in Hlt. lia.
Qed.

(** Popping an entry that is up to date: its node gets settled and its
    adjacency entries become pending. *)
Lemma pop_fresh settled m st d0 u0 rest :
  Inv g start end_ settled m [] st →
  pq st = (d0, u0) :: rest →
  u0 ≠ end_ →
  cost_lt (get_inf (distances st) u0) (Fin d0) = false →
  (u0 ∉ settled) ∧ distances st !! u0 = Some d0 ∧
  Inv g start end_ (u0 :: settled) d0 (get_neighbors g u0)
      {| pq := rest; distances := distances st; previous := previous st |}.
Proof.
  intros [Hsort Hnd Hlow Hq Hdone Hcl Hfr Htree Hprev Hst] Hpq Hne Hlt.
  rewrite Hpq in *.
  destruct (Hq d0 u0) as (d' & Hd' & Hle & Hs); [by left|].
  unfold get_inf in Hlt. rewrite Hd' in Hlt. simpl in Hlt.
  assert (d' = d0) as -> by lia.
  assert (Hu0 : u0 ∉ settled) by (intros Hin; specialize (Hs Hin); lia).
  assert (Hm : m ≤ d0) by (apply (Hlow d0 u0); by left).
  apply StronglySorted_inv in Hsort as [Hsort Hhd].
  apply NoDup_cons in Hnd as [Hfresh Hnd].
  split_and!; [done..|].
  constructor; simpl; try done.
  - intros d v Hv. rewrite Forall_forall in Hhd.
    apply (Hhd (d, v) Hv).
  - intros d v Hv. destruct (Hq d v) as (d' & Hd'' & Hle' & Hs'); [by right|].
    exists d'. split_and!; [done..|].
    intros [->|Hin]%elem_of_cons; [|by apply Hs'].
    simplify_eq. destruct (decide (d = d0)) as [->|]; [done|lia].
  - intros u [->|Hu]%elem_of_cons.
    + split; [done|]. exists d0. split; [done|lia].
    + destruct (Hdone _ Hu) as (? & du & ? & ?). split; [done|].
      exists du. split; [done|lia].
  - intros u du v w [->|Hu]%elem_of_cons Hdu Hv.
    + by left.
    + destruct (Hcl _ _ _ _ Hu Hdu Hv) as [[_ Hp]|?]; [|by right].
      by apply elem_of_nil in Hp.
  - intros v dv Hv. destruct (Hfr _ _ Hv) as [?|Hin]; [left; by right|].
    apply elem_of_cons in Hin as [Hin|Hin]; [|by right].
    simplify_eq. left. by left.
  - intros v dv Hv. destruct (Htree _ _ Hv) as (p & Hp & Hin).
    exists p. split; [done|]. intros y Hy.
    destruct (Hin _ Hy) as [?|?]; [by left|right; by right].
Qed.

Lemma todo_mono settled u e : (todo (u :: settled) e ≤ todo settled e)%nat.
Proof.
  unfold todo. destruct (decide (e.1 ∈ settled)) as [Hin|Hout].
  - rewrite decide_True; [done|by right].
  - case_decide; lia.
Qed.

Lemma todo_settle settled u l (L : list (Z * list (Z * Z))) :
  u ∉ settled → (u, l) ∈ L →
  (sum_list_with (todo (u :: settled)) L + length l
     ≤ sum_list_with (todo settled) L)%nat.
Proof.
  intros Hu. induction L as [|e L IH]; [by intros ?%elem_of_nil|].
  intros [<-|Hin]%elem_of_cons; simpl.
  - assert (H0 : todo (u :: settled) (u, l) = O).
    { unfold todo. simpl. rewrite decide_True; [done|by left]. }
    assert (H1 : todo settled (u, l) = length l).
    { unfold todo. simpl. by rewrite decide_False. }
    rewrite H0, H1. clear IH.
    assert (sum_list_with (todo (u :: settled)) L
              ≤ sum_list_with (todo settled) L)%nat; [|lia].
    induction L as [|e' L IH]; simpl; [lia|].
    pose proof (todo_mono settled u e'). lia.
  - specialize (IH Hin). pose proof (todo_mono settled u e). lia.
Qed.

(** Settling a node pays for the entries its neighbour loop may push. *)
Lemma work_settle settled u :
  u ∉ settled →
  (work g (u :: settled) + length (get_neighbors g u) ≤ work g settled)%nat.
Proof.
  intros Hu. unfold work, get_neighbors.
  destruct (adjacency g !! u) as [l|] eqn:E; simpl.
  - apply todo_settle; [done|]. by apply elem_of_map_to_list.
  - assert (sum_list_with (todo (u :: settled)) (map_to_list (adjacency g))
              ≤ sum_list_with (todo settled) (map_to_list (adjacency g)))%nat;
      [|lia].
    induction (map_to_list (adjacency g)) as [|e L IH]; simpl; [lia|].
    pose proof (todo_mono settled u e). lia.
Qed.

(** The search loop ends, and it ends in a state described by [Final]. *)
Lemma search_ends n : ∀ settled m st,
  Inv g start end_ settled m [] st →
  (length (pq st) + work g settled < n)%nat →
  ∃ st', dijkstra_loop n g end_ st = Some st' ∧ Final g start end_ st'.
Proof.
  induction n as [|n IH]; intros settled m st Hinv Hn; [lia|].
  simpl. destruct (pq st) as [|[d0 u0] rest] eqn:Hpq; simpl.
  - exists st. split; [done|]. exists settled, m, st. split_and!; auto.
  - case_decide as Hend.
    + eexists. split; [done|]. exists settled, m, st. simpl.
      split_and!; auto. right. subst. eauto.
    + destruct (cost_lt _ _) eqn:Hlt.
      * eapply IH; [by eapply pop_stale|]. simpl in *. lia.
      * destruct (pop_fresh _ _ _ _ _ _ Hinv Hpq Hend Hlt)
          as (Hu0 & Hd0 & Hinv').
        destruct (relax_all_inv _ _ _ _ _ Hinv' Hd0) as [Hinv'' Hlen];
          [done|].
        eapply IH; [exact Hinv''|].
        pose proof (work_settle _ _ Hu0). simpl in *. lia.
Qed.

Lemma search_terminates n :
  (search_fuel g ≤ n)%nat →
  ∃ st, dijkstra_search n g start end_ = Some st ∧ Final g start end_ st.
Proof.
  intros Hn. unfold dijkstra_search.
  eapply search_ends; [apply inv_init|].
  unfold search_fuel in Hn. simpl. lia.
Qed.

End Search.

(* ===================================================================== *)
(** * What the final state of the search tells *)
(* ===================================================================== *)

Section Results.

Variables (g : SimpleGraph) (start end_ : Z).

Lemma final_reached st :
  Final g start end_ st → reachable g start end_ →
  ∃ d, distances st !! end_ = Some d.
Proof.
  intros (settled & m & st0 & Hinv & Hd & Hp & Hq) Hreach. rewrite Hd.
  destruct Hq as [Hq|(d & rest & Hq)].
  - (* the queue ran empty: every reachable node has been settled *)
    assert (Hall : ∀ x, rtc (edge g) start x → x ∈ settled).
    { apply rtc_ind_r.
      - destruct (inv_start _ _ _ _ _ _ _ Hinv) as [d0 Hd0].
        destruct (inv_frontier _ _ _ _ _ _ _ Hinv _ _ Hd0) as [?|Hin];
          [done|].
        rewrite Hq in Hin. by apply elem_of_nil in Hin.
      - intros x y _ [w Hw] IH.
        destruct (inv_done _ _ _ _ _ _ _ Hinv _ IH) as (_ & dx & Hdx & _).
        destruct (inv_closed _ _ _ _ _ _ _ Hinv _ _ _ _ IH Hdx Hw)
          as [[_ Hin]|(dy & Hdy & _)]; [by apply elem_of_nil in Hin|].
        destruct (inv_frontier _ _ _ _ _ _ _ Hinv _ _ Hdy) as [?|Hin];
          [done|].
        rewrite Hq in Hin. by apply elem_of_nil in Hin. }
    destruct (inv_done _ _ _ _ _ _ _ Hinv _ (Hall _ Hreach)) as [Hne _].
    done.
  - destruct (inv_queued _ _ _ _ _ _ _ Hinv d end_) as (d' & Hd' & _).
    { rewrite Hq. by left. }
    eauto.
Qed.

Lemma final_tree st x d :
  Final g start end_ st → distances st !! x = Some d →
  ∃ p, tree_path g start (previous st) (distances st) x p.
Proof.
  intros (settled & m & st0 & Hinv & Hd & Hp & _). rewrite Hd, Hp.
  intros Hx. destruct (inv_tree _ _ _ _ _ _ _ Hinv _ _ Hx) as (p & Htp & _).
  eauto.
Qed.

Lemma final_prev st x u :
  Final g start end_ st → previous st !! x = Some u →
  is_Some (distances st !! x).
Proof.
  intros (settled & m & st0 & Hinv & Hd & Hp & _). rewrite Hd, Hp.
  apply (inv_prev _ _ _ _ _ _ _ Hinv).
Qed.

(** Every chain of predecessors ends: the map has no cycle. *)
Lemma final_acyclic st : Final g start end_ st → acyclic (previous st).
Proof.
  intros Hfin x. destruct (previous st !! x) as [u|] eqn:Hx.
  - destruct (final_prev _ _ _ Hfin Hx) as [d Hd].
    destruct (final_tree _ _ _ Hfin Hd) as [p Hp].
    exists (length p), ([] ++ rev (tail p)).
    by eapply tree_path_walk.
  - exists 1%nat, []. simpl. by rewrite Hx.
Qed.

Hypothesis weights : nonneg_weights g.

(** The complete behaviour of [dijkstra] on graphs without negative
    weights: it returns, with a simple path that starts at [start];
    either the destination is reachable and the path ends there with
    the cost of its edges, or it is not and the result is
    [([start], inf)]. *)
Lemma dijkstra_total :
  ∃ fuel st path c,
    (∀ n, (fuel ≤ n)%nat →
       dijkstra_search n g start end_ = Some st ∧
       dijkstra n g start end_ = Returned (path, c)) ∧
    Final g start end_ st ∧
    NoDup path ∧ head path = Some start ∧
    ((∃ z, c = Fin z ∧ last path = Some end_ ∧ path_cost g path z ∧
           reachable g start end_) ∨
     (c = Inf ∧ path = [start] ∧ ¬ reachable g start end_)).
Proof.
  destruct (search_terminates g start end_ weights (search_fuel g))
    as (st & Hst & Hfin); [done|].
  destruct (distances st !! end_) as [d|] eqn:Hd.
  - destruct (final_tree _ _ _ Hfin Hd) as [p Hp].
    exists (max (search_fuel g) (length p)), st, p, (Fin d).
    split_and!.
    + intros n Hn.
      assert (Hs : dijkstra_search n g start end_ = Some st).
      { eapply dijkstra_loop_mono; [|exact Hst]. lia. }
      split; [done|]. unfold dijkstra. rewrite Hs.
      rewrite (tree_path_walk _ _ _ _ _ _ Hp) by lia. simpl.
      rewrite (tree_path_rev_walk _ _ _ _ _ _ Hp).
      unfold get_inf. by rewrite Hd.
    + done.
    + by eapply tree_path_nodup.
    + by eapply tree_path_head.
    + left. exists d. split_and!; [done| | |].
      * by eapply tree_path_last.
      * destruct (tree_path_cost _ _ _ _ _ _ Hp) as (d' & Hd' & Hc).
        by simplify_eq.
      * by eapply tree_path_reachable.
  - assert (Hp : previous st !! end_ = None).
    { destruct (previous st !! end_) as [u|] eqn:Hu; [|done].
      destruct (final_prev _ _ _ Hfin Hu) as [d Hd']. congruence. }
    exists (search_fuel g), st, [start], Inf.
    split_and!.
    + intros n Hn.
      assert (Hs : dijkstra_search n g start end_ = Some st).
      { eapply dijkstra_loop_mono; [|exact Hst]. lia. }
      split; [done|]. unfold dijkstra. rewrite Hs.
      destruct n as [|n]; [unfold search_fuel in Hn; lia|].
      simpl. rewrite Hp. simpl. unfold get_inf. by rewrite Hd.
    + done.
    + apply NoDup_singleton.
    + done.
    + right. split_and!; [done..|].
      intros Hr. destruct (final_reached _ Hfin Hr) as [d Hd']. congruence.
Qed.

End Results.

(* ===================================================================== *)
(** * Concrete graphs *)
(* ===================================================================== *)

Section Examples.

Lemma weights_from_sound lo g u v w :
  weights_from lo g = true → (v, w) ∈ get_neighbors g u → lo ≤ w.
Proof.
  unfold weights_from, get_neighbors. intros Hall Hin.
  destruct (adjacency g !! u) as [l|] eqn:E; simpl in Hin;
    [|by apply elem_of_nil in Hin].
  rewrite forallb_forall in Hall.
  apply elem_of_map_to_list, list_elem_of_In in E.
  specialize (Hall _ E). simpl in Hall.
  rewrite forallb_forall in Hall.
  apply list_elem_of_In in Hin. specialize (Hall _ Hin). simpl in Hall. lia.
Qed.

Lemma weights_from_nonneg g : weights_from 0 g = true → nonneg_weights g.
Proof. intros H u v w Hin. by eapply weights_from_sound. Qed.

Lemma weights_from_positive g : weights_from 1 g = true → positive_weights g.
Proof.
  intros H u v w Hin. pose proof (weights_from_sound _ _ _ _ _ H Hin). lia.
Qed.

Lemma positive_nonneg g : positive_weights g → nonneg_weights g.
Proof. intros H u v w Hin. specialize (H _ _ _ Hin). lia. Qed.

(** A set of nodes closed under edges contains all that is reachable. *)
Lemma reachable_closed g (S : Z → Prop) s e :
  S s → (∀ x y, S x → edge g x y → S y) → reachable g s e → S e.
Proof.
  intros Hs Hstep Hr. unfold reachable in Hr.
  induction Hr as [|x y z Hxy Hyz IH]; [done|]. apply IH. by eapply Hstep.
Qed.

Lemma scenario_reach_0_2 : reachable scenario 0 2.
Proof.
  eapply rtc_l; [exists 5; by left|].
  eapply rtc_l; [exists 3; right; by left|]. apply rtc_refl.
Qed.

Lemma scenario_unreach_0_3 : ¬ reachable scenario 0 3.
Proof.
  intros Hr.
  apply (reachable_closed scenario (λ x, x = 0 ∨ x = 1 ∨ x = 2)) in Hr;
    [lia|by left|].
  intros x y Hx [w Hw]. destruct Hx as [->|[->| ->]].
  - apply list_elem_of_singleton in Hw. simplify_eq. lia.
  - apply elem_of_cons in Hw as [Hw|Hw%list_elem_of_singleton];
      simplify_eq; lia.
  - apply list_elem_of_singleton in Hw. simplify_eq. lia.
Qed.

Lemma negative_chain_reach : reachable negative_chain 5 0.
Proof.
  eapply rtc_l; [exists (-1); by left|].
  eapply rtc_l; [exists (-1); right; by left|]. apply rtc_refl.
Qed.

Lemma negative_edge_unreach : ¬ reachable negative_edge 0 3.
Proof.
  intros Hr.
  apply (reachable_closed negative_edge (λ x, x = 0 ∨ x = 1)) in Hr;
    [lia|by left|].
  intros x y [->| ->] [w Hw]; apply list_elem_of_singleton in Hw;
    simplify_eq; lia.
Qed.

(** In [negative_chain] the predecessors of [3] and [5] point at each
    other, so the backward walk never leaves them. *)
Lemma walk_back_cycle prev :
  prev !! 3 = Some 5 → prev !! 5 = Some 3 →
  ∀ n x path, x = 3 ∨ x = 5 → walk_back n prev x path = None.
Proof.
  intros H3 H5. induction n as [|n IH]; intros x path Hx; [done|].
  simpl. destruct Hx as [->| ->].
  - rewrite H3. apply IH. by right.
  - rewrite H5. apply IH. by left.
Qed.

Lemma negative_chain_diverges fuel :
  dijkstra fuel negative_chain 5 0 = Unfinished.
Proof.
  unfold dijkstra.
  destruct (dijkstra_search fuel negative_chain 5 0) as [st|] eqn:E; [|done].
  assert (Hst : dijkstra_search (max fuel 3) negative_chain 5 0 = Some st).
  { eapply dijkstra_loop_mono; [|exact E]. lia. }
  assert (H3 : dijkstra_search 3 negative_chain 5 0 =
               Some {| pq := [(-2, 5)];
                       distances := <[0 := -2]> (<[5 := -2]> (<[3 := -1]> {[5 := 0]}));
                       previous := <[0 := 3]> (<[5 := 3]> (<[3 := 5]> ∅)) |})
    by reflexivity.
  eapply (dijkstra_loop_mono _ _ _ (max fuel 3)) in H3; [|lia].
  unfold dijkstra_search in Hst. rewrite H3 in Hst. simplify_eq. simpl.
  destruct fuel as [|fuel]; [done|].
  change (walk_back (S fuel) ?p 0 []) with (walk_back fuel p 3 [0]).
  rewrite walk_back_cycle; [done..|by left].
Qed.

(** In [negative_edge] the two nodes keep lowering each other's
    distance: the queue always holds one entry, which is up to date. *)
Lemma negative_edge_search fuel : ∀ a b da db prev,
  (a = 0 ∧ b = 1) ∨ (a = 1 ∧ b = 0) → da - 1 < db →
  dijkstra_loop fuel negative_edge 3
    {| pq := [(da, a)]; distances := <[a := da]> {[b := db]};
       previous := prev |} = None.
Proof.
  induction fuel as [|fuel IH]; intros a b da db prev Hab Hlt; [done|].
  assert (Hne : a ≠ b) by lia.
  assert (Hnb : get_neighbors negative_edge a = [(b, -1)])
    by (destruct Hab as [[-> ->]|[-> ->]]; reflexivity).
  cbn [dijkstra_loop heappop pq distances previous].
  rewrite decide_False by lia.
  unfold get_inf at 1. rewrite lookup_insert_eq. cbn [cost_lt].
  rewrite Z.ltb_irrefl, Hnb. cbn [fold_left].
  unfold relax, get_inf; cbn [pq distances previous].
  rewrite lookup_insert_ne, lookup_singleton_eq by done. cbn [cost_lt].
  replace (da + -1 <? db) with true by lia. cbn [heappush].
  replace (<[b := da + -1]> (<[a := da]> {[b := db]}) : gmap Z Z)
    with (<[b := da + -1]> {[a := da]} : gmap Z Z).
  - apply IH; lia.
  - apply map_eq. intros i.
    destruct (decide (i = b)) as [->|Hib].
    + by rewrite !lookup_insert_eq.
    + rewrite !lookup_insert_ne by done.
      destruct (decide (i = a)) as [->|Hia].
      * by rewrite lookup_insert_eq, lookup_singleton_eq.
      * by rewrite lookup_insert_ne, !lookup_singleton_ne by done.
Qed.

Lemma negative_edge_diverges fuel :
  dijkstra fuel negative_edge 0 3 = Unfinished.
Proof.
  unfold dijkstra, dijkstra_search.
  destruct fuel as [|fuel]; [done|].
  assert (H : dijkstra_loop (S fuel) negative_edge 3 (dijkstra_init 0) =
              dijkstra_loop fuel negative_edge 3
                {| pq := [(-1, 1)]; distances := <[1 := -1]> {[0 := 0]};
                   previous := <[1 := 0]> ∅ |}) by reflexivity.
  rewrite H, negative_edge_search; [done|by right|lia].
Qed.

End Examples.

(* ===================================================================== *)
(** * Properties of the path finder *)
(* ===================================================================== *)

Section PathFinder.

Lemma a_star_loop_mono g end_ n : ∀ m st r,
  (n ≤ m)%nat → a_star_loop n g end_ st = Some r →
  a_star_loop m g end_ st = Some r.
Proof.
  induction n as [|n IH]; intros m st r Hle H; [done|].
  destruct m as [|m]; [lia|]. simpl in *.
  destruct (apq st) as [|[[cf cg] cur] rest]; simpl in *; [done|].
  case_decide; [done|].
  destruct (cost_lt _ _); apply IH; (lia || done).
Qed.

(** The search of [a_star] ends where the one of [dijkstra] does. *)
Lemma a_star_search_sim g start end_ n dst :
  dijkstra_search n g start end_ = Some dst →
  ∃ ast, a_star_search n g start end_ = Some ast ∧ sim ast dst.
Proof.
  unfold dijkstra_search, a_star_search. intros Hd.
  pose proof (sim_loop g end_ n _ _ (sim_init start)) as H.
  rewrite Hd in H. destruct (a_star_loop _ _ _ _) as [ast|]; [|done]. eauto.
Qed.

(** Outside the data model, which has positive travel times: with
    travel times below zero the predecessor map of [negative_chain] gets
    a cycle between [3] and [5], and the call [dijkstra(5, 0)] never
    returns although [0] is reachable. *)
Lemma negative_chain_never_returns :
  reachable negative_chain 5 0 ∧
  (¬ ∃ fuel r, dijkstra fuel negative_chain 5 0 = Returned r) ∧
  (¬ ∃ fuel r, a_star fuel negative_chain 5 0 = Returned r).
Proof.
  split; [apply negative_chain_reach|].
  split; intros (fuel & r & H); rewrite ?a_star_dijkstra in H;
    by rewrite negative_chain_diverges in H.
Qed.


(** On float travel times the returned cost is the rounded sum taken
    from the start: [(0.1 + 0.2) + 0.3] one way and [(0.3 + 0.2) + 0.1]
    the other way are different floats, and the first is more than
    [0.1 + 0.5], the cost from [0] to [1] plus the cost from [1] to
    [3]. *)
Remark float_costs_depend_on_direction :
  Binary64.positive_finite rounding_chain = true ∧
  Binary64.dijkstra 6 rounding_chain 0 3
    = Returned ([0; 1; 2; 3], 0.6000000000000001%float) ∧
  Binary64.dijkstra 6 rounding_chain 3 0
    = Returned ([3; 2; 1; 0], 0.6%float) ∧
  Binary64.dijkstra 6 rounding_chain 0 1 = Returned ([0; 1], 0.1%float) ∧
  Binary64.dijkstra 6 rounding_chain 1 3 = Returned ([1; 2; 3], 0.5%float) ∧
  (0.1 + 0.5 <? 0.6000000000000001)%float = true.
Proof. split_and!; vm_compute; reflexivity. Qed.



(** Outside the data model: in [negative_edge], whose travel time is
    below zero, node [3] is not reachable from [0], yet the search of
    [dijkstra(0, 3)] lowers the distances of [0] and [1] in turn for
    ever and the call never returns. *)
Lemma negative_edge_never_returns :
  0 ≠ 3 ∧ ¬ reachable negative_edge 0 3 ∧
  (¬ ∃ fuel r, dijkstra fuel negative_edge 0 3 = Returned r) ∧
  (¬ ∃ fuel r, a_star fuel negative_edge 0 3 = Returned r).
Proof.
  split; [lia|]. split; [apply negative_edge_unreach|].
  split; intros (fuel & r & H); rewrite ?a_star_dijkstra in H;
    by rewrite negative_edge_diverges in H.
Qed.

(** C2: on every graph of the data model, and more generally on every
    graph without negative travel times, if [end_] differs from [start]
    and is not reachable from it (known to the graph or not), [dijkstra]
    and [a_star] return normally, and the result is exactly
    [([start], inf)]. *)
Theorem unreachable_gives_start_and_inf g start end_ :
  nonneg_weights g → start ≠ end_ → ¬ reachable g start end_ →
  ∃ fuel, ∀ n, (fuel ≤ n)%nat →
    dijkstra n g start end_ = Returned ([start], Inf) ∧
    a_star n g start end_ = Returned ([start], Inf).
Proof.
  intros Hw _ Hr.
  destruct (dijkstra_total g start end_ Hw)
    as (fuel & st & path & c & Hrun & _ & _ & Hhd & Hcase).
  destruct Hcase as [(z & _ & _ & _ & ?)|(-> & -> & _)]; [done|].
  exists fuel. intros n Hn. rewrite a_star_dijkstra. split; by apply Hrun.
Qed.

Lemma unreachable_gives_start_and_inf_witness :
  ∃ fuel, ∀ n, (fuel ≤ n)%nat →
    dijkstra n scenario 0 3 = Returned ([0], Inf) ∧
    a_star n scenario 0 3 = Returned ([0], Inf).
Proof.
  apply (unreachable_gives_start_and_inf scenario 0 3).
  - apply weights_from_nonneg. reflexivity.
  - lia.
  - apply scenario_unreach_0_3.
Defined.

(** C3: on every graph with positive travel times and for every pair
    [(a, b)] with [b] reachable from [a], [a_star] (zero heuristic) and
    [dijkstra] both return, and they return the same cost. *)
Theorem a_star_cost_is_dijkstra_cost g a b :
  positive_weights g → reachable g a b →
  ∃ fuel c, ∀ n, (fuel ≤ n)%nat →
    (∃ path, a_star n g a b = Returned (path, c)) ∧
    (∃ path, dijkstra n g a b = Returned (path, c)).
Proof.
  intros Hw%positive_nonneg Hr.
  destruct (dijkstra_total g a b Hw) as (fuel & st & path & c & Hrun & _).
  exists fuel, c. intros n Hn. rewrite a_star_dijkstra.
  split; exists path; by apply Hrun.
Qed.

Lemma a_star_cost_is_dijkstra_cost_witness :
  ∃ fuel c, ∀ n, (fuel ≤ n)%nat →
    (∃ path, a_star n scenario 0 2 = Returned (path, c)) ∧
    (∃ path, dijkstra n scenario 0 2 = Returned (path, c)).
Proof.
  apply (a_star_cost_is_dijkstra_cost scenario 0 2).
  - apply weights_from_positive. reflexivity.
  - apply scenario_reach_0_2.
Defined.

(** C10: on every graph with strictly positive travel times the search
    of [dijkstra] and of [a_star] leaves a predecessor map without
    cycle (from any node the backward walk reaches a node that has no
    predecessor), both calls return, and the returned path repeats no
    node. *)
Theorem predecessor_walk_ends_in_simple_path g start end_ :
  positive_weights g →
  ∃ fuel dst ast path c,
    (∀ n, (fuel ≤ n)%nat →
       dijkstra_search n g start end_ = Some dst ∧
       a_star_search n g start end_ = Some ast ∧
       dijkstra n g start end_ = Returned (path, c) ∧
       a_star n g start end_ = Returned (path, c)) ∧
    acyclic (previous dst) ∧ acyclic (aprevious ast) ∧ NoDup path.
Proof.
  intros Hw%positive_nonneg.
  destruct (dijkstra_total g start end_ Hw)
    as (fuel & st & path & c & Hrun & Hfin & Hnd & _).
  destruct (a_star_search_sim g start end_ fuel st) as (ast & Hast & Hsim).
  { by apply Hrun. }
  exists fuel, st, ast, path, c. split_and!; [|by eapply final_acyclic| |done].
  - intros n Hn. rewrite a_star_dijkstra.
    destruct (Hrun n Hn) as [Hs Hd]. split_and!; [done| |done..].
    by eapply a_star_loop_mono.
  - destruct Hsim as (_ & _ & ->). by eapply final_acyclic.
Qed.

Lemma predecessor_walk_ends_in_simple_path_witness :
  ∃ fuel dst ast path c,
    (∀ n, (fuel ≤ n)%nat →
       dijkstra_search n scenario 0 2 = Some dst ∧
       a_star_search n scenario 0 2 = Some ast ∧
       dijkstra n scenario 0 2 = Returned (path, c) ∧
       a_star n scenario 0 2 = Returned (path, c)) ∧
    acyclic (previous dst) ∧ acyclic (aprevious ast) ∧ NoDup path.
Proof.
  apply (predecessor_walk_ends_in_simple_path scenario 0 2).
  apply weights_from_positive. reflexivity.
Defined.

(** The scenarios of the specification. *)
Example dijkstra_0_2 : dijkstra 6 scenario 0 2 = Returned ([0; 1; 2], Fin 8).
Proof. reflexivity. Qed.

Example a_star_0_2 : a_star 6 scenario 0 2 = Returned ([0; 1; 2], Fin 8).
Proof. reflexivity. Qed.

Example dijkstra_0_3 : dijkstra 6 scenario 0 3 = Returned ([0], Inf).
Proof. reflexivity. Qed.

Example dijkstra_self : dijkstra 6 scenario 1 1 = Returned ([1], Fin 0).
Proof. reflexivity. Qed.

(** The assertions of [test_correctness] in test.py. *)
Example test_correctness :
  (∃ path, dijkstra 32 create_kampala_graph 0 0 = Returned (path, Fin 0)) ∧
  (∃ path d, dijkstra 32 create_kampala_graph 0 1 = Returned (path, Fin d) ∧
             path ≠ [] ∧ 0 < d ∧ head path = Some 0 ∧ last path = Some 1).
Proof.
  split.
  - exists [0]. vm_compute. reflexivity.
  - exists [0; 1], 5. split_and!; [vm_compute; reflexivity|done|lia|done..].
Qed.

End PathFinder.

(* ===================================================================== *)
(** * Properties of the tour planner *)
(* ===================================================================== *)

Section TourPlanner.

(** Whatever the fuel, a call that returns has one result. *)
Lemma a_star_stable g n m s e r r' :
  a_star m g s e = Returned r → a_star n g s e = Returned r' → r' = r.
Proof.
  intros Hm Hn.
  apply (a_star_mono _ _ (max n m)) in Hm; [|lia].
  apply (a_star_mono _ _ (max n m)) in Hn; [|lia].
  congruence.
Qed.

Lemma nearest_scan_not_raised fuel g current stops : ∀ nearest min_time e,
  nearest_scan fuel g current stops nearest min_time ≠ Raised e.
Proof.
  induction stops as [|s stops IH]; intros nearest min_time e; simpl; [done|].
  destruct (a_star fuel g current s) as [[p t]|e'|] eqn:E; [| |done].
  - destruct (cost_lt t min_time); apply IH.
  - by apply a_star_not_raised in E.
Qed.

(** A round of the loop whose scan ends with a [nearest] that counts as
    false leaves all loop variables as they were: the loop cannot end. *)
Lemma tsp_loop_stuck fuel g unvisited current route total :
  unvisited ≠ ∅ →
  (∀ nearest t,
     nearest_scan fuel g current (elements unvisited) None Inf
       = Returned (nearest, t) → truthy nearest = false) →
  ∀ rounds, tsp_loop rounds fuel g unvisited current route total = Unfinished.
Proof.
  intros Hne Hscan. induction rounds as [|rounds IH]; [done|].
  cbn [tsp_loop]. rewrite decide_False by done.
  destruct (nearest_scan _ _ _ _ _ _) as [[nearest t]|e|] eqn:E; [| |done].
  - rewrite (Hscan _ _ eq_refl). by destruct nearest.
  - by apply nearest_scan_not_raised in E.
Qed.

(** Every remaining stop is unreachable: [nearest] stays [None]. *)
Lemma tsp_loop_stuck_unreachable rounds fuel :
  tsp_loop rounds fuel scenario {[3]} 0 [0] (Fin 0) = Unfinished.
Proof.
  apply tsp_loop_stuck; [apply non_empty_singleton_L|].
  intros nearest t. rewrite elements_singleton. cbn [nearest_scan].
  destruct (a_star fuel scenario 0 3) as [[p c]|e|] eqn:E; [|done..].
  assert ((p, c) = ([0], Inf)) as [= -> ->]
    by (apply (a_star_stable scenario fuel 6 0 3 ([0], Inf) (p, c));
        [reflexivity|exact E]).
  cbn [cost_lt]. by intros [= <- <-].
Qed.

(** The nearest stop is node [0], which [if nearest:] takes for false. *)
Lemma tsp_loop_stuck_zero rounds fuel :
  tsp_loop rounds fuel scenario {[0]} 1 [1] (Fin 0) = Unfinished.
Proof.
  apply tsp_loop_stuck; [apply non_empty_singleton_L|].
  intros nearest t. rewrite elements_singleton. cbn [nearest_scan].
  destruct (a_star fuel scenario 1 0) as [[p c]|e|] eqn:E; [|done..].
  assert ((p, c) = ([1; 0], Fin 5)) as [= -> ->]
    by (apply (a_star_stable scenario fuel 6 1 0 ([1; 0], Fin 5) (p, c));
        [reflexivity|exact E]).
  cbn [cost_lt]. by intros [= <- <-].
Qed.

Lemma a_star_kampala_3_0 :
  a_star 32 create_kampala_graph 3 0 = Returned ([3; 0], Fin 2).
Proof. vm_compute. reflexivity. Qed.

(** The same on the demonstration graph: from Kisekka Market the
    nearest stop is Old Taxi Park, node [0]. *)
Lemma tsp_loop_stuck_kampala rounds fuel :
  tsp_loop rounds fuel create_kampala_graph {[0]} 3 [3] (Fin 0) = Unfinished.
Proof.
  apply tsp_loop_stuck; [apply non_empty_singleton_L|].
  intros nearest t. rewrite elements_singleton. cbn [nearest_scan].
  destruct (a_star fuel create_kampala_graph 3 0) as [[p c]|e|] eqn:E;
    [|done..].
  assert ((p, c) = ([3; 0], Fin 2)) as [= -> ->]
    by (apply (a_star_stable create_kampala_graph fuel 32 3 0
                 ([3; 0], Fin 2) (p, c));
        [apply a_star_kampala_3_0|exact E]).
  cbn [cost_lt]. by intros [= <- <-].
Qed.

(** C6 (defect): on the scenario graph [greedy_tsp([0, 3])] never
    returns, because stop [3] is unreachable and the loop then repeats
    with unchanged variables; [greedy_tsp([1, 0])] never returns either,
    nor does [greedy_tsp([3, 0])] on the demonstration graph, because
    the nearest stop [0] is taken for false by [if nearest:].  Each
    [a_star] call involved returns. *)
Theorem greedy_tsp_never_returns :
  a_star 6 scenario 0 3 = Returned ([0], Inf) ∧
  a_star 6 scenario 1 0 = Returned ([1; 0], Fin 5) ∧
  a_star 32 create_kampala_graph 3 0 = Returned ([3; 0], Fin 2) ∧
  ∀ rounds fuel,
    greedy_tsp rounds fuel scenario [0; 3] = Unfinished ∧
    greedy_tsp rounds fuel scenario [1; 0] = Unfinished ∧
    greedy_tsp rounds fuel create_kampala_graph [3; 0] = Unfinished.
Proof.
  split; [reflexivity|]. split; [reflexivity|].
  split; [apply a_star_kampala_3_0|].
  intros rounds fuel. unfold greedy_tsp.
  rewrite !list_to_set_singleton_L.
  split_and!;
    [apply tsp_loop_stuck_unreachable|apply tsp_loop_stuck_zero
    |apply tsp_loop_stuck_kampala].
Qed.

(** The tour of the specification's scenario. *)
Example greedy_tsp_0_2_1 :
  greedy_tsp 3 6 scenario [0; 2; 1] = Returned ([0; 1; 2], Fin 8).
Proof. vm_compute. reflexivity. Qed.

End TourPlanner.

(* ===================================================================== *)
(** * Properties of the batch dispatcher *)
(* ===================================================================== *)

Section BatchDispatcher.

Variables (self : ParallelProcessor) (g : SimpleGraph).

Lemma length_complete fuel requests fs i :
  length (complete fuel g requests fs i) = length fs.
Proof.
  unfold complete. destruct (requests !! i); [apply length_insert|done].
Qed.

(** What future [i] holds once the pool has run a schedule. *)
Lemma run_schedule_lookup fuel requests schedule : ∀ fs i req,
  length fs = length requests →
  requests !! i = Some req →
  fold_left (complete fuel g requests) schedule fs !! i =
  if decide (i ∈ schedule) then Some (Some (process_request fuel g req))
  else fs !! i.
Proof.
  induction schedule as [|j schedule IH]; intros fs i req Hlen Hi;
    cbn [fold_left].
  - rewrite decide_False; [done|]. by intros ?%elem_of_nil.
  - rewrite (IH _ i req); [|by rewrite length_complete|done].
    destruct (decide (i ∈ schedule)) as [Hin|Hout].
    + rewrite decide_True; [done|by right].
    + destruct (decide (i = j)) as [->|Hne].
      * rewrite decide_True by by left.
        unfold complete. rewrite Hi.
        apply list_lookup_insert_eq. rewrite Hlen.
        by eapply lookup_lt_Some.
      * rewrite decide_False.
        -- unfold complete. destruct (requests !! j); [|done].
           by apply list_lookup_insert_ne.
        -- intros [?|?]%elem_of_cons; done.
Qed.

(** Under a fair schedule every future holds the outcome of its own
    request, whatever the order of completion. *)
Lemma run_pool_fair fuel requests schedule :
  fair schedule (length requests) →
  run_pool fuel g requests schedule =
  map (λ req, Some (process_request fuel g req)) requests.
Proof.
  intros Hfair. unfold run_pool. apply list_eq. intros i.
  rewrite list_lookup_fmap.
  destruct (requests !! i) as [req|] eqn:Hi; simpl.
  - rewrite (run_schedule_lookup _ _ _ _ _ req);
      [|apply length_replicate|done].
    rewrite decide_True; [done|]. apply Hfair. by eapply lookup_lt_Some.
  - apply lookup_ge_None. apply lookup_ge_None in Hi.
    assert (Hlen : ∀ fs, length (fold_left (complete fuel g requests) schedule fs)
                         = length fs).
    { clear. induction schedule as [|j s IH]; intros fs; simpl; [done|].
      by rewrite IH, length_complete. }
    rewrite Hlen. unfold submit_all. by rewrite length_replicate.
Qed.

Lemma gather_sequential fuel requests :
  gather (map (λ req, Some (process_request fuel g req)) requests) =
  sequential fuel g requests.
Proof.
  induction requests as [|[s e] requests IH]; simpl; [done|].
  destruct (a_star fuel g s e); [|done..]. by rewrite IH.
Qed.

Lemma sequential_slots fuel requests : ∀ results,
  sequential fuel g requests = Returned results →
  Forall2 (λ req r, a_star fuel g req.1 req.2 = Returned r) requests results.
Proof.
  induction requests as [|[s e] requests IH]; intros results H; simpl in H.
  - simplify_eq. constructor.
  - destruct (a_star fuel g s e) as [r| |] eqn:E; [|done..].
    destruct (sequential fuel g requests) as [rs| |]; [|done..].
    simplify_eq. constructor; [done|]. by apply IH.
Qed.

Lemma sequential_not_raised fuel requests e :
  sequential fuel g requests ≠ Raised e.
Proof.
  induction requests as [|[s t] requests IH]; simpl; [done|].
  destruct (a_star fuel g s t) as [r|e'|] eqn:E; [| |done].
  - by destruct (sequential fuel g requests).
  - by apply a_star_not_raised in E.
Qed.

Lemma sequential_returns requests :
  nonneg_weights g →
  ∃ fuel results, ∀ n, (fuel ≤ n)%nat →
    sequential n g requests = Returned results.
Proof.
  intros Hw. induction requests as [|[s e] requests (f1 & rs & IH)].
  - by exists O, [].
  - destruct (dijkstra_total g s e Hw) as (f2 & st & p & c & Hrun & _).
    exists (max f1 f2), ((p, c) :: rs). intros n Hn. simpl.
    rewrite a_star_dijkstra.
    destruct (Hrun n ltac:(lia)) as [_ ->]. by rewrite IH by lia.
Qed.

(** With a positive pool size and a schedule that completes every task
    the batch has the outcome of the sequential calls. *)
Lemma simple_parallel_pool fuel schedule requests :
  0 < num_workers self → fair schedule (length requests) →
  simple_parallel self fuel schedule g requests = sequential fuel g requests.
Proof.
  intros Hpool Hfair. unfold simple_parallel.
  destruct (Z.leb_spec (num_workers self) 0) as [?|_]; [lia|].
  rewrite run_pool_fair, gather_sequential by done.
  destruct (sequential fuel g requests) as [rs|e|] eqn:E; [done| |done].
  by apply sequential_not_raised in E.
Qed.

(** C7: for a dispatcher whose pool size is positive, every graph and
    every list of [N] requests, whatever the order in which the workers
    complete their tasks, [simple_parallel] has the outcome of calling
    [a_star] on the requests one after the other; when it returns, it
    returns exactly [N] results and slot [i] holds what [a_star] returns
    on request [i]; and on graphs without negative travel times it does
    return. *)
Theorem simple_parallel_is_sequential fuel schedule requests :
  0 < num_workers self →
  fair schedule (length requests) →
  simple_parallel self fuel schedule g requests = sequential fuel g requests ∧
  (∀ results,
     simple_parallel self fuel schedule g requests = Returned results →
     length results = length requests ∧
     ∀ i start end_, requests !! i = Some (start, end_) →
       ∃ r, results !! i = Some r ∧ a_star fuel g start end_ = Returned r) ∧
  (nonneg_weights g →
   ∃ fuel0 results, ∀ n, (fuel0 ≤ n)%nat →
     simple_parallel self n schedule g requests = Returned results ∧
     length results = length requests).
Proof.
  intros Hpool Hfair.
  assert (Heq : ∀ n, simple_parallel self n schedule g requests =
                     sequential n g requests).
  { intros n. by apply simple_parallel_pool. }
  split_and!; [apply Heq| |].
  - intros results Hres. rewrite Heq in Hres.
    apply sequential_slots in Hres.
    split; [symmetry; by eapply Forall2_length|].
    intros i s e Hi.
    destruct (Forall2_lookup_l _ _ _ _ _ Hres Hi) as (r & Hr & Ha). eauto.
  - intros Hw. destruct (sequential_returns requests Hw) as (f & rs & Hrs).
    exists f, rs. intros n Hn. rewrite Heq. split; [by apply Hrs|].
    specialize (Hrs f ltac:(lia)). apply sequential_slots in Hrs.
    symmetry. by eapply Forall2_length.
Qed.

End BatchDispatcher.

Section Requests.

Lemma fair_swap : fair [1; 0]%nat 2.
Proof.
  intros i Hi. destruct i as [|[|i]]; [right; by left|by left|lia].
Qed.

Lemma simple_parallel_is_sequential_witness :
  simple_parallel (mkPP 2) 6 [1; 0]%nat scenario [(0, 2); (0, 3)] =
  sequential 6 scenario [(0, 2); (0, 3)] ∧
  ∃ fuel0 results, ∀ n, (fuel0 ≤ n)%nat →
    simple_parallel (mkPP 2) n [1; 0]%nat scenario [(0, 2); (0, 3)]
      = Returned results ∧
    length results = 2%nat.
Proof.
  destruct (simple_parallel_is_sequential (mkPP 2) scenario 6 [1; 0]%nat
              [(0, 2); (0, 3)] ltac:(simpl; lia) fair_swap)
    as (Heq & _ & Hret).
  split; [exact Heq|].
  apply Hret, weights_from_nonneg. reflexivity.
Defined.

(** The batch of the specification's scenario, completed in reverse. *)
Example batch_scenario :
  simple_parallel (mkPP 2) 6 [1; 0]%nat scenario [(0, 2); (0, 3)] =
  Returned [([0; 1; 2], Fin 8); ([0], Inf)].
Proof. reflexivity. Qed.

Lemma run_pool_nil fuel g schedule : run_pool fuel g [] schedule = [].
Proof.
  unfold run_pool. simpl.
  induction schedule as [|i schedule IH]; simpl; [done|].
  unfold complete at 2. by rewrite lookup_nil.
Qed.

(** C9, as stated, fails: an empty stop list and an empty request list
    are answered with a normal result, no error is raised. *)
Lemma empty_requests_are_not_rejected :
  ¬ rejected (greedy_tsp 0 0 scenario []) ∧
  ¬ rejected (simple_parallel (mkPP 2) 0 [] scenario []).
Proof. split; by intros [e He]. Qed.

(** C9 (amended): [greedy_tsp] given fewer than two stops, the empty list
    included, returns [(stops, 0)] unchanged, and [simple_parallel] of a
    dispatcher whose pool size is positive, given the empty request
    list, returns the empty result list; neither call rejects its input
    or raises. *)
Theorem short_requests_return_normally rounds fuel g stops self schedule :
  (length stops < 2)%nat →
  0 < num_workers self →
  greedy_tsp rounds fuel g stops = Returned (stops, Fin 0) ∧
  simple_parallel self fuel schedule g [] = Returned [].
Proof.
  intros Hlen Hpool. split.
  - destruct stops as [|s [|s' stops]]; simpl in *; [done..|lia].
  - unfold simple_parallel.
    destruct (Z.leb_spec (num_workers self) 0) as [?|_]; [lia|].
    by rewrite run_pool_nil.
Qed.

Lemma short_requests_return_normally_witness :
  greedy_tsp 0 0 scenario [] = Returned ([], Fin 0) ∧
  simple_parallel (mkPP 2) 0 [] scenario [] = Returned [].
Proof.
  apply (short_requests_return_normally 0 0 scenario [] (mkPP 2) []).
  - simpl. lia.
  - simpl. lia.
Defined.

End Requests.

(* ===================================================================== *)
(** * Further properties of the path finder *)
(* ===================================================================== *)

Section Routes.

Variable g : SimpleGraph.

Lemma path_cost_nonneg p c : nonneg_weights g → path_cost g p c → 0 ≤ c.
Proof.
  intros Hw. induction 1 as [x|x y p w c Hxy Hp IH]; [done|].
  pose proof (Hw _ _ _ Hxy). lia.
Qed.

Lemma path_cost_nonempty p c : path_cost g p c → p ≠ [].
Proof. by destruct 1. Qed.

Lemma route_reachable s e p c : route g s e p c → reachable g s e.
Proof.
  intros (Hh & Hl & Hc). revert s Hh.
  induction Hc as [x|x y p w c Hxy Hp IH]; intros s Hh; simpl in Hh;
    simplify_eq.
  - simpl in Hl. simplify_eq. apply rtc_refl.
  - eapply rtc_l; [by exists w|]. apply IH; [|done].
    by rewrite last_cons_cons in Hl.
Qed.

(** Routes can be joined end to end. *)
Lemma route_app a b c p q cp cq :
  route g a b p cp → route g b c q cq →
  ∃ r, route g a c r (cp + cq).
Proof.
  intros (Hh & Hl & Hp) (Hh' & Hl' & Hq). revert a Hh.
  induction Hp as [x|x y p w cp Hxy Hp IH]; intros a Hh; simpl in Hh;
    simplify_eq.
  - simpl in Hl. simplify_eq. exists q. by replace (0 + cq) with cq by lia.
  - rewrite last_cons_cons in Hl.
    destruct (IH Hl y eq_refl) as (r & Hrh & Hrl & Hr).
    destruct r as [|y' r]; [done|]. simpl in Hrh. simplify_eq.
    exists (a :: y :: r). split_and!; [done|by rewrite last_cons_cons|].
    replace (w + cp + cq) with (w + (cp + cq)) by lia. by constructor.
Qed.

Lemma rev_reverse (l : list Z) : rev l = reverse l.
Proof. unfold reverse. apply rev_alt. Qed.

(** On a symmetric graph a route can be walked backwards. *)
Lemma route_rev s e p c : symmetric g → route g s e p c → route g e s (rev p) c.
Proof.
  intros Hsym (Hh & Hl & Hc). split_and!.
  - by rewrite rev_reverse, head_reverse.
  - by rewrite rev_reverse, last_reverse.
  - clear Hh Hl. induction Hc as [x|x y p w c Hxy Hp IH]; [constructor|].
    change (rev (x :: y :: p)) with (rev (y :: p) ++ [x]).
    replace (w + c) with (c + w) by lia.
    eapply path_cost_snoc; [exact IH| |by apply Hsym].
    by rewrite rev_reverse, last_reverse.
Qed.

Lemma reachable_sym s e : symmetric g → reachable g s e → reachable g e s.
Proof.
  intros Hsym. induction 1 as [|x y z [w Hw] _ IH]; [apply rtc_refl|].
  eapply rtc_r; [exact IH|]. exists w. by apply Hsym.
Qed.

End Routes.

Section Optimal.

Variables (g : SimpleGraph) (start end_ : Z).
Hypothesis weights : nonneg_weights g.

(** The distance recorded for [start] stays [0]. *)
Lemma tree_path_start prev dist p :
  tree_path g start prev dist start p → dist !! start = Some 0.
Proof.
  inversion 1 as [|v u w du p' Hp Hu Hdu Hdv Hvw Hv]; [done|]. subst.
  pose proof (tree_path_head _ _ _ _ _ _ Hu) as Hh.
  destruct p' as [|s q]; [done|]. simpl in Hh. simplify_eq.
  exfalso. apply Hv. by left.
Qed.

(** When the destination is at the head of the queue, no route from a
    settled node to it is cheaper than the key of that head. *)
Lemma head_key_bound settled m st d rest :
  Inv g start end_ settled m [] st →
  pq st = (d, end_) :: rest →
  ∀ p c, path_cost g p c → last p = Some end_ →
  ∀ x dx, head p = Some x → x ∈ settled → distances st !! x = Some dx →
  d ≤ dx + c.
Proof.
  intros Hinv Hpq p c Hc. induction Hc as [x|x y p w c Hxy Hp IH];
    intros Hl z dz Hh Hz Hdz; simpl in Hh; simplify_eq.
  - simpl in Hl. simplify_eq.
    by destruct (inv_done _ _ _ _ _ _ _ Hinv _ Hz) as [? _].
  - rewrite last_cons_cons in Hl.
    pose proof (path_cost_nonneg g _ _ weights Hp) as Hc0.
    destruct (inv_closed _ _ _ _ _ _ _ Hinv _ _ _ _ Hz Hdz Hxy)
      as [[_ Hin]|(dy & Hdy & Hle)]; [by apply elem_of_nil in Hin|].
    destruct (inv_frontier _ _ _ _ _ _ _ Hinv _ _ Hdy) as [Hy|Hy].
    + specialize (IH Hl y dy eq_refl Hy Hdy). lia.
    + pose proof (inv_sorted _ _ _ _ _ _ _ Hinv) as Hs.
      rewrite Hpq in Hs, Hy.
      apply StronglySorted_inv in Hs as [_ Hhd].
      rewrite Forall_forall in Hhd.
      apply elem_of_cons in Hy as [Hy|Hy].
      * simplify_eq. lia.
      * specialize (Hhd _ Hy). unfold key_le in Hhd. simpl in Hhd. lia.
Qed.

(** The distance recorded for the destination when the search ends is a
    lower bound of the cost of every route. *)
Lemma final_optimal st d p c :
  Final g start end_ st → distances st !! end_ = Some d →
  route g start end_ p c → d ≤ c.
Proof.
  intros (settled & m & st0 & Hinv & Hd & _ & Hq) Hde (Hh & Hl & Hc).
  rewrite Hd in Hde.
  destruct (inv_start _ _ _ _ _ _ _ Hinv) as [d0 Hd0].
  destruct (inv_tree _ _ _ _ _ _ _ Hinv _ _ Hd0) as (p0 & Hp0 & _).
  pose proof (tree_path_start _ _ _ Hp0) as Hs0.
  pose proof (path_cost_nonneg g _ _ weights Hc) as Hc0.
  destruct Hq as [Hq|(d' & rest & Hq)].
  - destruct (inv_frontier _ _ _ _ _ _ _ Hinv _ _ Hde) as [Hin|Hin].
    + by destruct (inv_done _ _ _ _ _ _ _ Hinv _ Hin) as [? _].
    + rewrite Hq in Hin. by apply elem_of_nil in Hin.
  - destruct (inv_queued _ _ _ _ _ _ _ Hinv d' end_) as (d'' & Hd'' & Hle & _).
    { rewrite Hq. by left. }
    assert (d'' = d) as -> by congruence.
    destruct (inv_frontier _ _ _ _ _ _ _ Hinv _ _ Hs0) as [Hin|Hin].
    + pose proof (head_key_bound _ _ _ _ _ Hinv Hq _ _ Hc Hl _ _ Hh Hin Hs0).
      lia.
    + pose proof (inv_sorted _ _ _ _ _ _ _ Hinv) as Hs.
      rewrite Hq in Hs, Hin.
      apply StronglySorted_inv in Hs as [_ Hhd].
      rewrite Forall_forall in Hhd.
      apply elem_of_cons in Hin as [Hin|Hin].
      * simplify_eq. lia.
      * specialize (Hhd _ Hin). unfold key_le in Hhd. simpl in Hhd. lia.
Qed.

(** What [dijkstra] returns when a route exists: the cost of a route,
    and no route is cheaper. *)
Lemma dijkstra_shortest :
  reachable g start end_ →
  ∃ fuel path d,
    (∀ n, (fuel ≤ n)%nat → dijkstra n g start end_ = Returned (path, Fin d)) ∧
    route g start end_ path d ∧
    ∀ p c, route g start end_ p c → d ≤ c.
Proof.
  intros Hr.
  destruct (dijkstra_total g start end_ weights)
    as (fuel & st & path & c & Hrun & Hfin & _ & Hhd & Hcase).
  destruct Hcase as [(z & -> & Hl & Hc & _)|(_ & _ & Hn)]; [|done].
  exists fuel, path, z. split_and!.
  - intros n Hn. by apply Hrun.
  - done.
  - intros p c Hp. eapply final_optimal; [exact Hfin| |exact Hp].
    destruct (Hrun fuel ltac:(lia)) as [Hs Hd].
    unfold dijkstra in Hd. rewrite Hs in Hd.
    destruct (walk_back _ _ _ _); [|done].
    unfold get_inf in Hd. destruct (distances st !! end_); by simplify_eq.
Qed.

End Optimal.

Section PathFinderExtras.

Lemma scenario_nonneg : nonneg_weights scenario.
Proof. apply weights_from_nonneg. reflexivity. Qed.

Lemma scenario_symmetric : symmetric scenario.
Proof.
  apply symmetric_run; [|apply symmetric_empty].
  simpl. repeat split; reflexivity.
Qed.

Lemma scenario_reach_0_1 : reachable scenario 0 1.
Proof. eapply rtc_l; [exists 5; by left|]. apply rtc_refl. Qed.

Lemma scenario_reach_1_2 : reachable scenario 1 2.
Proof. eapply rtc_l; [exists 3; right; by left|]. apply rtc_refl. Qed.

Lemma work_nil g : work g [] = adjacency_entries g.
Proof.
  unfold work, adjacency_entries.
  induction (map_to_list (adjacency g)) as [|e l IH]; simpl; [done|].
  rewrite IH. unfold todo. rewrite decide_False; [done|].
  by intros ?%elem_of_nil.
Qed.

(** X1: a query from a node to itself returns [([n], 0)] as soon as the
    loop may run once, on every graph: known node or not, whatever the
    weights. *)
Theorem self_route_is_trivial g n fuel :
  dijkstra (S fuel) g n n = Returned ([n], Fin 0) ∧
  a_star (S fuel) g n n = Returned ([n], Fin 0).
Proof.
  rewrite a_star_dijkstra. split; unfold dijkstra, dijkstra_search; simpl;
    rewrite decide_True by done; simpl; rewrite lookup_empty; simpl;
    unfold get_inf; by rewrite lookup_singleton_eq.
Qed.

(** X2: on a graph whose travel times are integers, none of them
    negative, if [end_] is reachable the cost returned by [dijkstra] and
    [a_star] is the cost of the returned route and no route from [start]
    to [end_] costs less.  (Sums of floats can overflow and hide a
    route, as on [overflow_chain].) *)
Theorem returned_cost_is_minimal g start end_ :
  nonneg_weights g → reachable g start end_ →
  ∃ fuel path d,
    (∀ n, (fuel ≤ n)%nat →
       dijkstra n g start end_ = Returned (path, Fin d) ∧
       a_star n g start end_ = Returned (path, Fin d)) ∧
    route g start end_ path d ∧
    ∀ p c, route g start end_ p c → d ≤ c.
Proof.
  intros Hw Hr.
  destruct (dijkstra_shortest g start end_ Hw Hr)
    as (fuel & path & d & Hrun & Hroute & Hmin).
  exists fuel, path, d. split_and!; [|done..].
  intros n Hn. rewrite a_star_dijkstra. split; by apply Hrun.
Qed.

Lemma returned_cost_is_minimal_witness :
  ∃ fuel path d,
    (∀ n, (fuel ≤ n)%nat →
       dijkstra n scenario 0 2 = Returned (path, Fin d) ∧
       a_star n scenario 0 2 = Returned (path, Fin d)) ∧
    route scenario 0 2 path d ∧
    ∀ p c, route scenario 0 2 p c → d ≤ c.
Proof.
  apply (returned_cost_is_minimal scenario 0 2).
  - apply weights_from_nonneg. reflexivity.
  - apply scenario_reach_0_2.
Defined.

(** X3: on a graph whose travel times are integers, none of them
    negative, every query returns, the path starts at [start], and the
    cost is infinite exactly when [end_] is not reachable, in which case
    the path is [[start]].  (With floats an infinite cost can also come
    from a sum that overflows.) *)
Theorem infinite_cost_iff_unreachable g start end_ :
  nonneg_weights g →
  ∃ fuel path c,
    (∀ n, (fuel ≤ n)%nat →
       dijkstra n g start end_ = Returned (path, c) ∧
       a_star n g start end_ = Returned (path, c)) ∧
    head path = Some start ∧
    (c = Inf ↔ ¬ reachable g start end_) ∧
    (c = Inf → path = [start]).
Proof.
  intros Hw.
  destruct (dijkstra_total g start end_ Hw)
    as (fuel & st & path & c & Hrun & _ & _ & Hhd & Hcase).
  exists fuel, path, c. split_and!; [|done| |].
  - intros n Hn. rewrite a_star_dijkstra. split; by apply Hrun.
  - destruct Hcase as [(z & -> & _ & _ & Hr)|(-> & _ & Hr)]; [|done].
    split; [done|]. intros Hn. by destruct Hn.
  - destruct Hcase as [(z & -> & _)|(_ & -> & _)]; done.
Qed.

Lemma infinite_cost_iff_unreachable_witness :
  ∃ fuel path c,
    (∀ n, (fuel ≤ n)%nat →
       dijkstra n scenario 0 3 = Returned (path, c) ∧
       a_star n scenario 0 3 = Returned (path, c)) ∧
    head path = Some 0 ∧
    (c = Inf ↔ ¬ reachable scenario 0 3) ∧
    (c = Inf → path = [0]).
Proof.
  apply (infinite_cost_iff_unreachable scenario 0 3).
  apply weights_from_nonneg. reflexivity.
Defined.

(** X4: [a_star], whose heuristic is zero, is the same function as
    [dijkstra]: on every graph and every query both return the same path
    and the same cost, or neither returns. *)
Theorem a_star_is_dijkstra g fuel start end_ :
  a_star fuel g start end_ = dijkstra fuel g start end_.
Proof. apply a_star_dijkstra. Qed.

(** X5: on a symmetric graph whose travel times are integers, none of
    them negative, the cost from [a] to [b] is the cost from [b] to [a].
    (Sums of floats depend on the order of the summands:
    [float_costs_depend_on_direction].) *)
Theorem symmetric_graph_symmetric_cost g a b :
  symmetric g → nonneg_weights g → reachable g a b →
  ∃ fuel d pab pba, ∀ n, (fuel ≤ n)%nat →
    dijkstra n g a b = Returned (pab, Fin d) ∧
    dijkstra n g b a = Returned (pba, Fin d).
Proof.
  intros Hsym Hw Hab.
  pose proof (reachable_sym g _ _ Hsym Hab) as Hba.
  destruct (dijkstra_shortest g a b Hw Hab)
    as (f1 & p1 & d1 & Hrun1 & Hr1 & Hmin1).
  destruct (dijkstra_shortest g b a Hw Hba)
    as (f2 & p2 & d2 & Hrun2 & Hr2 & Hmin2).
  pose proof (Hmin1 _ _ (route_rev g _ _ _ _ Hsym Hr2)).
  pose proof (Hmin2 _ _ (route_rev g _ _ _ _ Hsym Hr1)).
  assert (d2 = d1) as -> by lia.
  exists (max f1 f2), d1, p1, p2. intros n Hn.
  split; [apply Hrun1|apply Hrun2]; lia.
Qed.

Lemma symmetric_graph_symmetric_cost_witness :
  ∃ fuel d pab pba, ∀ n, (fuel ≤ n)%nat →
    dijkstra n scenario 0 2 = Returned (pab, Fin d) ∧
    dijkstra n scenario 2 0 = Returned (pba, Fin d).
Proof.
  apply (symmetric_graph_symmetric_cost scenario 0 2).
  - apply symmetric_run; [|apply symmetric_empty].
    simpl. repeat split; reflexivity.
  - apply weights_from_nonneg. reflexivity.
  - apply scenario_reach_0_2.
Defined.

(** X6: on a graph whose travel times are integers, none of them
    negative, the returned costs obey the triangle inequality: going
    from [a] to [c] costs at most going from [a] to [b] and then from
    [b] to [c].  (Not so for floats:
    [float_costs_depend_on_direction].) *)
Theorem returned_costs_triangle g a b c :
  nonneg_weights g → reachable g a b → reachable g b c →
  ∃ fuel dab dbc dac pab pbc pac,
    (∀ n, (fuel ≤ n)%nat →
       dijkstra n g a b = Returned (pab, Fin dab) ∧
       dijkstra n g b c = Returned (pbc, Fin dbc) ∧
       dijkstra n g a c = Returned (pac, Fin dac)) ∧
    dac ≤ dab + dbc.
Proof.
  intros Hw Hab Hbc.
  assert (Hac : reachable g a c) by (unfold reachable in *; by etrans).
  destruct (dijkstra_shortest g a b Hw Hab) as (f1 & p1 & d1 & Hrun1 & Hr1 & _).
  destruct (dijkstra_shortest g b c Hw Hbc) as (f2 & p2 & d2 & Hrun2 & Hr2 & _).
  destruct (dijkstra_shortest g a c Hw Hac) as (f3 & p3 & d3 & Hrun3 & _ & Hmin).
  destruct (route_app g _ _ _ _ _ _ _ Hr1 Hr2) as (r & Hr).
  exists (max f1 (max f2 f3)), d1, d2, d3, p1, p2, p3. split.
  - intros n Hn. split_and!; [apply Hrun1|apply Hrun2|apply Hrun3]; lia.
  - by eapply Hmin.
Qed.

Lemma returned_costs_triangle_witness :
  ∃ fuel dab dbc dac pab pbc pac,
    (∀ n, (fuel ≤ n)%nat →
       dijkstra n scenario 0 1 = Returned (pab, Fin dab) ∧
       dijkstra n scenario 1 2 = Returned (pbc, Fin dbc) ∧
       dijkstra n scenario 0 2 = Returned (pac, Fin dac)) ∧
    dac ≤ dab + dbc.
Proof.
  apply (returned_costs_triangle scenario 0 1 2).
  - apply weights_from_nonneg. reflexivity.
  - apply scenario_reach_0_1.
  - apply scenario_reach_1_2.
Defined.

(** X7: on a graph without negative travel times the search loop of
    [dijkstra] and of [a_star] ends, for every query, after testing its
    condition at most two times more than the graph has adjacency
    entries. *)
Theorem search_iterations_bounded g start end_ :
  nonneg_weights g →
  is_Some (dijkstra_search (S (S (adjacency_entries g))) g start end_) ∧
  is_Some (a_star_search (S (S (adjacency_entries g))) g start end_).
Proof.
  intros Hw.
  destruct (search_terminates g start end_ Hw (S (S (adjacency_entries g))))
    as (st & Hst & _).
  { unfold search_fuel. by rewrite work_nil. }
  split; [eauto|].
  destruct (a_star_search_sim _ _ _ _ _ Hst) as (ast & Hast & _). eauto.
Qed.

Lemma search_iterations_bounded_witness :
  is_Some (dijkstra_search (S (S (adjacency_entries scenario))) scenario 0 3) ∧
  is_Some (a_star_search (S (S (adjacency_entries scenario))) scenario 0 3).
Proof.
  apply (search_iterations_bounded scenario 0 3).
  apply weights_from_nonneg. reflexivity.
Defined.

End PathFinderExtras.

(* ===================================================================== *)
(** * Further properties of the graph store *)
(* ===================================================================== *)

Section GraphStoreExtras.

Implicit Types (g : SimpleGraph) (ops : list op).

Lemma run_cons o ops g : run (o :: ops) g = run ops (apply_op g o).
Proof. done. Qed.

Lemma run_snoc ops o g : run (ops ++ [o]) g = apply_op (run ops g) o.
Proof. unfold run. by rewrite fold_left_app. Qed.

(** X8: [add_node(n, lat, lon)] records the position of [n], empties the
    neighbour list of [n] even when [n] had edges, and leaves the
    position and the neighbours of every other node as they were. *)
Theorem add_node_lookup g n lat lon :
  positions (add_node g n lat lon) !! n = Some (lat, lon) ∧
  get_neighbors (add_node g n lat lon) n = [] ∧
  ∀ x, x ≠ n →
    positions (add_node g n lat lon) !! x = positions g !! x ∧
    get_neighbors (add_node g n lat lon) x = get_neighbors g x.
Proof.
  split_and!.
  - unfold add_node; simpl. apply lookup_insert_eq.
  - rewrite get_neighbors_add_node. by rewrite decide_True.
  - intros x Hx. split.
    + unfold add_node; simpl. by rewrite lookup_insert_ne.
    + rewrite get_neighbors_add_node. by rewrite decide_False.
Qed.

(** X9: [add_edge(a, b, w)] appends one entry at the end of the
    neighbour list of each endpoint (two entries to the same list when
    [a = b]), creates an endpoint that was unknown, and changes no other
    neighbour list, no position and no bucket of the spatial index. *)
Theorem add_edge_appends g a b w :
  (∀ x, get_neighbors (add_edge g a b w) x =
        get_neighbors g x ++ (if decide (a = x) then [(b, w)] else [])
                          ++ (if decide (b = x) then [(a, w)] else [])) ∧
  is_Some (adjacency (add_edge g a b w) !! a) ∧
  is_Some (adjacency (add_edge g a b w) !! b) ∧
  positions (add_edge g a b w) = positions g ∧
  grid (add_edge g a b w) = grid g.
Proof.
  split_and!; [apply get_neighbors_add_edge| | |done..].
  - unfold add_edge; simpl.
    destruct (decide (b = a)) as [->|Hne].
    + rewrite lookup_alter_eq. apply fmap_is_Some.
      rewrite lookup_alter_eq. apply fmap_is_Some. apply ensure_is_Some.
    + rewrite lookup_alter_ne by done.
      rewrite lookup_alter_eq. apply fmap_is_Some.
      apply ensure_mono, ensure_is_Some.
  - unfold add_edge; simpl.
    rewrite lookup_alter_eq. apply fmap_is_Some.
    destruct (decide (a = b)) as [->|Hne].
    + rewrite lookup_alter_eq. apply fmap_is_Some. apply ensure_is_Some.
    + rewrite lookup_alter_ne by done. apply ensure_is_Some.
Qed.

Lemma dom_ensure n (adj : gmap Z (list (Z * Z))) :
  dom (ensure n adj) = {[n]} ∪ dom adj.
Proof.
  unfold ensure. destruct (adj !! n) eqn:E.
  - assert (n ∈ dom adj) by (apply elem_of_dom; eauto). set_solver.
  - apply dom_insert_L.
Qed.

Lemma dom_adjacency_apply g o :
  dom (adjacency (apply_op g o)) = list_to_set (op_ids o) ∪ dom (adjacency g).
Proof.
  destruct o as [n lat lon|a b w]; simpl.
  - rewrite dom_insert_L. set_solver.
  - rewrite !dom_alter_L, !dom_ensure. set_solver.
Qed.

Lemma dom_positions_apply g o :
  dom (positions (apply_op g o)) =
  match o with
  | AddNode n _ _ => {[n]} ∪ dom (positions g)
  | AddEdge _ _ _ => dom (positions g)
  end.
Proof. destruct o; simpl; [apply dom_insert_L|done]. Qed.

(** X10: after any history the keys of the adjacency map are exactly the
    ids named by some [add_node] or [add_edge] call, the keys of the
    position map are exactly the ids given to [add_node]; so every node
    that has a position has a neighbour list, while a node created by
    [add_edge] alone has none. *)
Theorem keys_of_the_maps ops :
  dom (adjacency (build ops)) = named ops ∧
  dom (positions (build ops)) = added ops ∧
  dom (positions (build ops)) ⊆ dom (adjacency (build ops)).
Proof.
  assert (H : ∀ g,
    dom (adjacency (run ops g)) = named ops ∪ dom (adjacency g) ∧
    dom (positions (run ops g)) = added ops ∪ dom (positions g) ∧
    added ops ⊆ named ops).
  { induction ops as [|o ops IH]; intros g.
    - unfold named, added; simpl. set_solver.
    - rewrite run_cons. destruct (IH (apply_op g o)) as (Ha & Hp & Hs).
      rewrite Ha, Hp, dom_adjacency_apply, dom_positions_apply.
      unfold named, added in *; simpl.
      rewrite list_to_set_app_L.
      destruct o as [n lat lon|a b w]; simpl; set_solver. }
  destruct (H empty) as (Ha & Hp & Hs). unfold build. rewrite Ha, Hp.
  unfold empty; simpl. rewrite !dom_empty_L. set_solver.
Qed.

Lemma entries_apply g o u v w :
  (v, w) ∈ get_neighbors (apply_op g o) u →
  (v, w) ∈ get_neighbors g u ∨ o = AddEdge u v w ∨ o = AddEdge v u w.
Proof.
  destruct o as [n lat lon|a b t]; simpl.
  - rewrite get_neighbors_add_node. case_decide; [by intros ?%elem_of_nil|].
    by left.
  - rewrite get_neighbors_add_edge, !elem_of_app.
    intros [H|[H|H]]; [by left| |]; case_decide;
      try (by apply elem_of_nil in H);
      apply list_elem_of_singleton in H; simplify_eq; eauto.
Qed.

Lemma entries_run ops : ∀ g u v w,
  (v, w) ∈ get_neighbors (run ops g) u →
  (v, w) ∈ get_neighbors g u ∨ AddEdge u v w ∈ ops ∨ AddEdge v u w ∈ ops.
Proof.
  induction ops as [|o ops IH]; intros g u v w H; [by left|].
  rewrite run_cons in H. apply IH in H as [H|[H|H]].
  - apply entries_apply in H as [H|[->| ->]]; [by left| |].
    + right. left. by left.
    + right. right. by left.
  - right. left. by right.
  - right. right. by right.
Qed.

Lemma kept_run ops : ∀ g u v w,
  nodes_before_edges g ops →
  (v, w) ∈ get_neighbors g u → (v, w) ∈ get_neighbors (run ops g) u.
Proof.
  induction ops as [|o ops IH]; intros g u v w Hops H; [done|].
  destruct Hops as [Ho Hops]. rewrite run_cons. apply IH; [done|].
  destruct o as [n lat lon|a b t]; simpl.
  - rewrite get_neighbors_add_node. case_decide; [|done].
    subst. rewrite Ho in H. by apply elem_of_nil in H.
  - rewrite get_neighbors_add_edge, !elem_of_app. by left.
Qed.

Lemma calls_run ops : ∀ g a b w,
  nodes_before_edges g ops → AddEdge a b w ∈ ops →
  (b, w) ∈ get_neighbors (run ops g) a ∧ (a, w) ∈ get_neighbors (run ops g) b.
Proof.
  induction ops as [|o ops IH]; intros g a b w Hops Hin;
    [by apply elem_of_nil in Hin|].
  destruct Hops as [Ho Hops]. rewrite run_cons.
  apply elem_of_cons in Hin as [<-|Hin]; [|by apply IH].
  split; apply kept_run; try done; simpl;
    rewrite get_neighbors_add_edge, !elem_of_app.
  - right. left. rewrite decide_True by done. by left.
  - right. right. rewrite (decide_True (P := b = b)) by done. by left.
Qed.

(** X11: every entry of a neighbour list comes from an [add_edge] call
    of the history, with the weight of that call; if no [add_node]
    re-inserts a node that has edges, every [add_edge] call is also
    still present in both lists; and a history whose travel times are
    not negative gives a graph without negative weights. *)
Theorem entries_are_add_edge_calls ops :
  (∀ u v w, (v, w) ∈ get_neighbors (build ops) u →
            AddEdge u v w ∈ ops ∨ AddEdge v u w ∈ ops) ∧
  (nodes_before_edges empty ops →
   ∀ a b w, AddEdge a b w ∈ ops →
            (b, w) ∈ get_neighbors (build ops) a ∧
            (a, w) ∈ get_neighbors (build ops) b) ∧
  ((∀ a b w, AddEdge a b w ∈ ops → 0 ≤ w) → nonneg_weights (build ops)).
Proof.
  assert (H1 : ∀ u v w, (v, w) ∈ get_neighbors (build ops) u →
                        AddEdge u v w ∈ ops ∨ AddEdge v u w ∈ ops).
  { intros u v w H. apply entries_run in H as [H|H]; [|done].
    rewrite get_neighbors_empty in H. by apply elem_of_nil in H. }
  split_and!; [done| |].
  - intros Hops a b w Hin. by apply calls_run.
  - intros Hw u v w Hin. destruct (H1 _ _ _ Hin) as [H|H]; by eapply Hw.
Qed.

Lemma entries_are_add_edge_calls_witness :
  (0, 5) ∈ get_neighbors (build [AddNode 0 0.3146 32.5761;
                                 AddEdge 0 1 5]) 1 ∧
  nonneg_weights (build [AddNode 0 0.3146 32.5761;
                         AddEdge 0 1 5]).
Proof.
  destruct (entries_are_add_edge_calls
              [AddNode 0 0.3146 32.5761; AddEdge 0 1 5])
    as (_ & Hkept & Hnn).
  split.
  - apply (Hkept ltac:(simpl; repeat split; reflexivity) 0 1 5).
    right. by left.
  - apply Hnn. intros a b w Hin.
    apply elem_of_cons in Hin as [Hin|Hin]; [done|].
    apply list_elem_of_singleton in Hin. simplify_eq. lia.
Defined.

Lemma entries_insert_new (m : gmap Z (list (Z * Z))) i l :
  m !! i = None →
  sum_list_with (λ e : Z * list (Z * Z), length e.2) (map_to_list (<[i := l]> m))
  = (length l + sum_list_with (λ e : Z * list (Z * Z), length e.2)
                              (map_to_list m))%nat.
Proof. intros H. by rewrite map_to_list_insert. Qed.

Lemma entries_lookup (m : gmap Z (list (Z * Z))) i l :
  m !! i = Some l →
  sum_list_with (λ e : Z * list (Z * Z), length e.2) (map_to_list m)
  = (length l + sum_list_with (λ e : Z * list (Z * Z), length e.2)
                              (map_to_list (delete i m)))%nat.
Proof. intros H. by rewrite <- (map_to_list_delete m i l H). Qed.

Lemma entries_replace (m : gmap Z (list (Z * Z))) i l l' :
  m !! i = Some l →
  (sum_list_with (λ e : Z * list (Z * Z), length e.2)
                 (map_to_list (<[i := l']> m)) + length l
   = sum_list_with (λ e : Z * list (Z * Z), length e.2) (map_to_list m)
     + length l')%nat.
Proof.
  intros H. rewrite (entries_lookup m i l H).
  rewrite <- insert_delete_eq.
  rewrite entries_insert_new by apply lookup_delete_eq. lia.
Qed.

Lemma entries_alter (m : gmap Z (list (Z * Z))) i l e :
  m !! i = Some l →
  sum_list_with (λ e : Z * list (Z * Z), length e.2)
                (map_to_list (alter (λ l, l ++ [e]) i m))
  = S (sum_list_with (λ e : Z * list (Z * Z), length e.2) (map_to_list m)).
Proof.
  intros H.
  assert (alter (λ l, l ++ [e]) i m = <[i := l ++ [e]]> m) as ->.
  { apply map_eq. intros j. destruct (decide (i = j)) as [->|Hne].
    - by rewrite lookup_alter_eq, lookup_insert_eq, H.
    - by rewrite lookup_alter_ne, lookup_insert_ne. }
  pose proof (entries_replace m i l (l ++ [e]) H) as Hr.
  rewrite length_app in Hr. simpl in Hr. lia.
Qed.

Lemma entries_ensure (m : gmap Z (list (Z * Z))) n :
  sum_list_with (λ e : Z * list (Z * Z), length e.2) (map_to_list (ensure n m))
  = sum_list_with (λ e : Z * list (Z * Z), length e.2) (map_to_list m).
Proof.
  unfold ensure. destruct (m !! n) eqn:E; [done|].
  by rewrite entries_insert_new.
Qed.

Lemma adjacency_entries_add_edge g a b w :
  adjacency_entries (add_edge g a b w) = S (S (adjacency_entries g)).
Proof.
  unfold adjacency_entries, add_edge; simpl.
  pose proof (ensure_mono b _ _ (ensure_is_Some a (adjacency g))) as [la Ha].
  assert (is_Some (alter (λ l, l ++ [(b, w)]) a
                         (ensure b (ensure a (adjacency g))) !! b)) as [lb Hb].
  { destruct (decide (a = b)) as [->|Hne].
    - rewrite lookup_alter_eq, Ha. eauto.
    - rewrite lookup_alter_ne by done. apply ensure_is_Some. }
  rewrite (entries_alter _ _ _ _ Hb), (entries_alter _ _ _ _ Ha).
  by rewrite !entries_ensure.
Qed.

Lemma adjacency_entries_add_node g n lat lon :
  get_neighbors g n = [] →
  adjacency_entries (add_node g n lat lon) = adjacency_entries g.
Proof.
  unfold adjacency_entries, add_node, get_neighbors; simpl. intros Hn.
  destruct (adjacency g !! n) as [l|] eqn:E; simpl in Hn.
  - subst. pose proof (entries_replace _ _ _ [] E) as Hr. simpl in Hr. lia.
  - by rewrite entries_insert_new.
Qed.

(** X12: if no [add_node] re-inserts a node that has edges, the
    neighbour lists hold two entries for each [add_edge] call of the
    history. *)
Theorem two_entries_per_add_edge ops :
  nodes_before_edges empty ops →
  adjacency_entries (build ops) = (2 * length (filter is_add_edge ops))%nat.
Proof.
  assert (H : ∀ g, nodes_before_edges g ops →
    adjacency_entries (run ops g)
    = (adjacency_entries g + 2 * length (filter is_add_edge ops))%nat).
  { induction ops as [|o ops IH]; intros g Hops; [simpl; lia|].
    destruct Hops as [Ho Hops]. rewrite run_cons, (IH _ Hops).
    destruct o as [n lat lon|a b w]; cbn [apply_op].
    - rewrite adjacency_entries_add_node by done.
      rewrite filter_cons_False by (simpl; tauto). done.
    - rewrite adjacency_entries_add_edge.
      rewrite filter_cons_True by done. simpl. lia. }
  intros Hops. unfold build. rewrite (H _ Hops).
  unfold adjacency_entries, empty; simpl. by rewrite map_to_list_empty.
Qed.

Lemma two_entries_per_add_edge_witness :
  adjacency_entries
    (build [AddNode 0 0.3146 32.5761;
            AddNode 1 0.3191 32.5836;
            AddEdge 0 1 5; AddEdge 1 2 3]) = 4%nat.
Proof.
  apply (two_entries_per_add_edge
           [AddNode 0 0.3146 32.5761;
            AddNode 1 0.3191 32.5836;
            AddEdge 0 1 5; AddEdge 1 2 3]).
  simpl. repeat split; reflexivity.
Defined.

Lemma sum_alter {A} (m : A → nat) (f : A → A) (l : list A) : ∀ i a,
  l !! i = Some a →
  (sum_list_with m (alter f i l) + m a = sum_list_with m l + m (f a))%nat.
Proof.
  induction l as [|b l IH]; intros i a H; [done|].
  destruct i as [|i]; simpl in *.
  - simplify_eq. lia.
  - specialize (IH _ _ H).
    change (alter f i l) with (list_alter f i l) in IH. lia.
Qed.

Lemma in_grid_range x y :
  in_grid x y = true → (Z.to_nat x < 10)%nat ∧ (Z.to_nat y < 10)%nat.
Proof. unfold in_grid. lia. Qed.

Lemma grid_append_shape x y n gr :
  grid_shape gr → grid_shape (grid_append x y n gr).
Proof.
  intros [Hlen Hrows]. unfold grid_append. split.
  - by rewrite length_alter.
  - intros row [k Hk]%list_elem_of_lookup.
    rewrite list_lookup_alter in Hk. case_decide.
    + destruct (gr !! Z.to_nat x) as [r|] eqn:E; simpl in Hk; [|done].
      simplify_eq. rewrite length_alter. apply Hrows.
      by eapply list_elem_of_lookup_2.
    + apply Hrows. by eapply list_elem_of_lookup_2.
Qed.

(** Under the guard of [add_node] the bucket that is indexed exists. *)
Lemma grid_cell_exists x y gr :
  grid_shape gr → in_grid x y = true →
  ∃ row b, gr !! Z.to_nat x = Some row ∧ row !! Z.to_nat y = Some b.
Proof.
  intros [Hlen Hrows] [Hx Hy]%in_grid_range.
  destruct (lookup_lt_is_Some_2 gr (Z.to_nat x)) as [row Hrow]; [lia|].
  pose proof (Hrows row (list_elem_of_lookup_2 _ _ _ Hrow)) as Hr.
  destruct (lookup_lt_is_Some_2 row (Z.to_nat y)) as [b Hb]; [lia|]. eauto.
Qed.

Lemma grid_append_count x y n gr :
  grid_shape gr → in_grid x y = true →
  sum_list_with (sum_list_with length) (grid_append x y n gr)
  = S (sum_list_with (sum_list_with length) gr).
Proof.
  intros Hs Hin. destruct (grid_cell_exists _ _ _ Hs Hin) as (row & b & Hr & Hb).
  unfold grid_append.
  pose proof (sum_alter (sum_list_with length)
                (alter (λ bucket, bucket ++ [n]) (Z.to_nat y)) gr _ _ Hr) as H1.
  pose proof (sum_alter length (λ bucket, bucket ++ [n]) row _ _ Hb) as H2.
  cbv beta in H1, H2. rewrite length_app in H2. simpl in H2. lia.
Qed.

Lemma grid_append_bucket x y n gr i j :
  grid_shape gr → in_grid x y = true →
  default [] (grid_append x y n gr !! i ≫= (.!! j))
  = default [] (gr !! i ≫= (.!! j))
    ++ (if decide (i = Z.to_nat x ∧ j = Z.to_nat y) then [n] else []).
Proof.
  intros Hs Hin. destruct (grid_cell_exists _ _ _ Hs Hin) as (row & b & Hr & Hb).
  unfold grid_append. rewrite list_lookup_alter.
  destruct (decide (Z.to_nat x = i)) as [<-|Hne].
  - rewrite Hr. simpl. rewrite list_lookup_alter.
    destruct (decide (Z.to_nat y = j)) as [<-|Hne].
    + rewrite Hb. simpl. by rewrite decide_True.
    + rewrite decide_False by naive_solver. by rewrite app_nil_r.
  - rewrite decide_False by naive_solver. by rewrite app_nil_r.
Qed.

Lemma grid_shape_empty : grid_shape (grid empty).
Proof.
  split; [done|]. intros row Hrow.
  change (grid empty) with (replicate 10 (replicate 10 ([] : list Z))) in Hrow.
  apply elem_of_replicate in Hrow as [-> _]. done.
Qed.

Lemma target_Some lat lon x y :
  target lat lon = Some (x, y) ↔
  grid_x lat = Returned x ∧ grid_y lon = Returned y ∧ in_grid x y = true.
Proof.
  unfold target.
  destruct (grid_x lat) as [x'|e|], (grid_y lon) as [y'|e'|];
    try (split; [done|by intros (? & ? & ?)]).
  destruct (in_grid x' y') eqn:Hin; split.
  - intros [= -> ->]. done.
  - intros ([= ->] & [= ->] & _). done.
  - done.
  - intros ([= ->] & [= ->] & ?). congruence.
Qed.

(** The grid after [add_node]: one bucket has grown, or none. *)
Lemma grid_add_node g n lat lon :
  grid (add_node g n lat lon) =
  match target lat lon with
  | Some (x, y) => grid_append x y n (grid g)
  | None => grid g
  end.
Proof.
  unfold add_node, target; simpl.
  destruct (grid_x lat) as [x|e|], (grid_y lon) as [y|e'|]; try done.
  by destruct (in_grid x y).
Qed.

Lemma grid_shape_apply g o :
  grid_shape (grid g) → grid_shape (grid (apply_op g o)).
Proof.
  intros Hs. destruct o as [n lat lon|a b w]; cbn [apply_op]; [|done].
  rewrite grid_add_node. destruct (target lat lon) as [[x y]|]; [|done].
  by apply grid_append_shape.
Qed.

Lemma grid_shape_run ops : ∀ g,
  grid_shape (grid g) → grid_shape (grid (run ops g)).
Proof.
  induction ops as [|o ops IH]; intros g Hs; [done|].
  rewrite run_cons. by apply IH, grid_shape_apply.
Qed.

(** X13: after any history the spatial index still has its ten rows of
    ten buckets, and it holds one id for each [add_node] call that
    appended to a bucket, that is, whose two conversions returned
    numbers that passed the range test (re-insertions included): the
    guard of [add_node] keeps every index in range, no insertion is
    lost. *)
Theorem spatial_index_size ops :
  grid_shape (grid (build ops)) ∧
  grid_count (build ops) = length (filter bucketed ops).
Proof.
  split; [apply grid_shape_run, grid_shape_empty|].
  assert (H : ∀ g, grid_shape (grid g) →
    grid_count (run ops g) = (grid_count g + length (filter bucketed ops))%nat).
  { induction ops as [|o ops IH]; intros g Hs; [simpl; lia|].
    rewrite run_cons, (IH _ (grid_shape_apply _ o Hs)).
    destruct o as [n lat lon|a b w].
    - unfold grid_count; cbn [apply_op]. rewrite grid_add_node.
      destruct (target lat lon) as [[x y]|] eqn:Ht.
      + rewrite filter_cons_True
          by (cbn [bucketed]; rewrite Ht; by apply bool_decide_pack).
        apply target_Some in Ht as (_ & _ & Hin).
        rewrite grid_append_count by done. simpl. lia.
      + rewrite filter_cons_False; [done|].
        cbn [bucketed]. rewrite Ht. intros [? [=]]%bool_decide_unpack.
    - rewrite filter_cons_False by (simpl; tauto). by unfold grid_count. }
  unfold build. rewrite (H _ grid_shape_empty). done.
Qed.

Lemma bucket_run ops m i j :
  m ∈ bucket (build ops) i j ↔
  ∃ lat lon x y, AddNode m lat lon ∈ ops ∧ target lat lon = Some (x, y) ∧
                 i = Z.to_nat x ∧ j = Z.to_nat y.
Proof.
  unfold build. induction ops as [|o ops IH] using rev_ind.
  - unfold bucket.
    change (grid (run [] empty))
      with (replicate 10 (replicate 10 ([] : list Z))).
    split.
    + intros H.
      destruct (replicate 10 (replicate 10 ([] : list Z)) !! i) as [row|] eqn:E;
        cbn [mbind option_bind default] in H; [|by apply elem_of_nil in H].
      apply lookup_replicate in E as [-> _].
      destruct (replicate 10 ([] : list Z) !! j) as [b|] eqn:E';
        cbn [default] in H; [|by apply elem_of_nil in H].
      apply lookup_replicate in E' as [-> _]. by apply elem_of_nil in H.
    + intros (lat & lon & x & y & H & _). by apply elem_of_nil in H.
  - rewrite run_snoc.
    pose proof (grid_shape_run ops empty grid_shape_empty) as Hs.
    assert (Hold : (∃ lat lon x y, AddNode m lat lon ∈ ops ++ [o] ∧
                      target lat lon = Some (x, y) ∧
                      i = Z.to_nat x ∧ j = Z.to_nat y)
                   ↔ m ∈ bucket (run ops empty) i j ∨
                     (∃ lat lon x y, o = AddNode m lat lon ∧
                        target lat lon = Some (x, y) ∧
                        i = Z.to_nat x ∧ j = Z.to_nat y)).
    { rewrite IH. split.
      - intros (lat & lon & x & y & [H|H]%elem_of_app & Hrest).
        + left. eauto 10.
        + apply list_elem_of_singleton in H. right. eauto 10.
      - intros [(lat & lon & x & y & H & Hrest)|(lat & lon & x & y & -> & Hrest)];
          exists lat, lon, x, y; (split; [|done]); apply elem_of_app;
          [by left|right; by left]. }
    rewrite Hold. clear Hold IH.
    destruct o as [n lat lon|a b w]; cbn [apply_op].
    + unfold bucket at 1. rewrite grid_add_node.
      destruct (target lat lon) as [[x y]|] eqn:Ht.
      * pose proof Ht as (_ & _ & Hin)%target_Some.
        rewrite grid_append_bucket by done. rewrite elem_of_app.
        fold (bucket (run ops empty) i j). split.
        -- intros [H|H]; [by left|]. right.
           case_decide as Hd; [|by apply elem_of_nil in H].
           apply list_elem_of_singleton in H. subst.
           exists lat, lon, x, y. naive_solver.
        -- intros [H|(lat' & lon' & x' & y' & Heq & Ht' & -> & ->)]; [by left|].
           simplify_eq. right. rewrite decide_True by done. by left.
      * fold (bucket (run ops empty) i j). split; [by left|].
        intros [H|(lat' & lon' & x' & y' & Heq & Ht' & _)]; [done|].
        simplify_eq.
    + unfold bucket at 1; simpl. fold (bucket (run ops empty) i j).
      split; [by left|]. by intros [H|(lat' & lon' & x' & y' & Heq & _)].
Qed.

(** X14: after any history, bucket [(i, j)] of the spatial index holds
    [m] exactly when for some [add_node(m, lat, lon)] call of the
    history the two conversions [int((lat - 0.3) * 20)] and
    [int((lon - 32.5) * 20)], computed in binary64, returned [i] and
    [j] and these passed the range test; a node re-inserted elsewhere
    stays in its former bucket too. *)
Theorem spatial_index_contents ops m i j :
  m ∈ bucket (build ops) i j ↔
  ∃ lat lon x y, AddNode m lat lon ∈ ops ∧
                 grid_x lat = Returned x ∧ grid_y lon = Returned y ∧
                 in_grid x y = true ∧
                 i = Z.to_nat x ∧ j = Z.to_nat y.
Proof.
  rewrite bucket_run. split.
  - intros (lat & lon & x & y & H & (? & ? & ?)%target_Some & ? & ?).
    exists lat, lon, x, y. done.
  - intros (lat & lon & x & y & H & Hx & Hy & Hin & ? & ?).
    exists lat, lon, x, y. split_and!; [done| |done..].
    by apply target_Some.
Qed.

(** A position on the lower boundary of the cell below the box: both
    transforms of [(0.25, 32.45)] are a little above [-1], [int] gives
    [0] twice, and the node is bucketed. *)
Example boundary_position_is_bucketed :
  grid_x 0.25 = Returned 0 ∧ grid_y 32.45 = Returned 0 ∧
  bucket (build [AddNode 1 0.25 32.45]) 0 0 = [1].
Proof. split_and!; vm_compute; reflexivity. Qed.

(** The spatial index of the demo graph: Bwaise, node [12], whose
    latitude [0.35] is transformed to [0.9999999999999998], lies in row
    [0] with the other nodes; every call of [create_kampala_graph]
    returns. *)
Example kampala_buckets :
  bucket create_kampala_graph 0 1 = [0; 1; 2; 3; 4; 5; 6; 9; 10; 11; 12; 14] ∧
  bucket create_kampala_graph 0 2 = [7; 8; 13] ∧
  grid_count create_kampala_graph = 15%nat ∧
  Forall (λ pos : float * float, add_node_result pos.1 pos.2 = Returned tt)
         kampala_locations.
Proof.
  split_and!; [vm_compute; reflexivity..|].
  repeat (constructor; [vm_compute; reflexivity|]). constructor.
Qed.

Lemma py_int_raises x e :
  py_int x = Raised e → e = OverflowError ∨ e = ValueError.
Proof.
  unfold py_int. destruct (Prim2SF x) as [s|s| |s m e']; intros [=]; auto.
Qed.

(** X24: when [add_node] raises, the exception is the [OverflowError]
    or the [ValueError] of [int], and the node has been registered all
    the same: its neighbour list is empty (edges it had are gone), its
    position is stored, and the spatial index is as before the call. *)
Theorem add_node_raising g n lat lon e :
  add_node_result lat lon = Raised e →
  (e = OverflowError ∨ e = ValueError) ∧
  get_neighbors (add_node g n lat lon) n = [] ∧
  positions (add_node g n lat lon) !! n = Some (lat, lon) ∧
  grid (add_node g n lat lon) = grid g.
Proof.
  intros H. split_and!.
  - unfold add_node_result in H.
    destruct (grid_x lat) as [x|e1|] eqn:Hx; [| |done].
    + destruct (grid_y lon) as [y|e2|] eqn:Hy; [done| |done].
      simplify_eq. by eapply py_int_raises.
    + simplify_eq. by eapply py_int_raises.
  - rewrite get_neighbors_add_node. by rewrite decide_True.
  - unfold add_node; simpl. apply lookup_insert_eq.
  - unfold add_node_result in H. unfold add_node; simpl.
    destruct (grid_x lat) as [x|e1|]; [|done..].
    by destruct (grid_y lon) as [y|e2|].
Qed.

Lemma add_node_raising_witness :
  (OverflowError = OverflowError ∨ OverflowError = ValueError) ∧
  get_neighbors (add_node scenario 1 1e308 32.5) 1 = [] ∧
  positions (add_node scenario 1 1e308 32.5) !! 1 = Some (1e308, 32.5)%float ∧
  grid (add_node scenario 1 1e308 32.5) = grid scenario.
Proof.
  apply (add_node_raising scenario 1 1e308 32.5 OverflowError).
  vm_compute. reflexivity.
Defined.

Lemma path_cost_entries g g' p c :
  (∀ u v w, (v, w) ∈ get_neighbors g u → (v, w) ∈ get_neighbors g' u) →
  path_cost g p c → path_cost g' p c.
Proof. intros Hsub H. induction H; constructor; auto. Qed.

Lemma route_entries g g' s e p c :
  (∀ u v w, (v, w) ∈ get_neighbors g u → (v, w) ∈ get_neighbors g' u) →
  route g s e p c → route g' s e p c.
Proof.
  intros Hsub (Hh & Hl & Hc). split_and!; [done..|by eapply path_cost_entries].
Qed.

Lemma reachable_entries g g' s e :
  (∀ u v w, (v, w) ∈ get_neighbors g u → (v, w) ∈ get_neighbors g' u) →
  reachable g s e → reachable g' s e.
Proof.
  intros Hsub H. induction H as [|x y z [w Hxy] _ IH]; [apply rtc_refl|].
  eapply rtc_l; [|exact IH]. exists w. by apply Hsub.
Qed.

(** Two graphs with the same adjacency entries, in whatever order, give
    every query the same cost. *)
Lemma same_entries_same_cost g g' start end_ :
  nonneg_weights g →
  (∀ u v w, (v, w) ∈ get_neighbors g u ↔ (v, w) ∈ get_neighbors g' u) →
  ∃ fuel c p p', ∀ n, (fuel ≤ n)%nat →
    dijkstra n g start end_ = Returned (p, c) ∧
    dijkstra n g' start end_ = Returned (p', c).
Proof.
  intros Hw Hsame.
  assert (Hw' : nonneg_weights g').
  { intros u v w Hin. apply Hsame in Hin. by eapply Hw. }
  assert (Hto : ∀ u v w, (v, w) ∈ get_neighbors g u → (v, w) ∈ get_neighbors g' u)
    by (intros; by apply Hsame).
  assert (Hfrom : ∀ u v w, (v, w) ∈ get_neighbors g' u → (v, w) ∈ get_neighbors g u)
    by (intros; by apply Hsame).
  destruct (dijkstra_total g start end_ Hw)
    as (f1 & st1 & p1 & c1 & Hrun1 & _ & _ & _ & Hcase1).
  destruct Hcase1 as [(z & -> & _ & _ & Hr)|(-> & _ & Hn)].
  - destruct (dijkstra_shortest g start end_ Hw Hr)
      as (f2 & p2 & d2 & Hrun2 & Hr2 & Hmin2).
    destruct (dijkstra_shortest g' start end_ Hw' (reachable_entries _ _ _ _ Hto Hr))
      as (f3 & p3 & d3 & Hrun3 & Hr3 & Hmin3).
    pose proof (Hmin2 _ _ (route_entries _ _ _ _ _ _ Hfrom Hr3)).
    pose proof (Hmin3 _ _ (route_entries _ _ _ _ _ _ Hto Hr2)).
    assert (d3 = d2) as -> by lia.
    exists (max f2 f3), (Fin d2), p2, p3. intros n Hn.
    split; [apply Hrun2|apply Hrun3]; lia.
  - destruct (dijkstra_total g' start end_ Hw')
      as (f2 & st2 & p2 & c2 & Hrun2 & _ & _ & _ & Hcase2).
    destruct Hcase2 as [(z & -> & _ & _ & Hr)|(-> & _ & _)].
    + destruct Hn. by eapply reachable_entries.
    + exists (max f1 f2), Inf, p1, p2. intros n Hn'.
      split; [apply Hrun1|apply Hrun2]; lia.
Qed.

(** X15: the order of the construction calls does not change any cost.
    Two histories with the same calls in different orders, neither of
    which re-inserts a node that has edges, and without negative travel
    times, give graphs on which every query returns the same cost (the
    paths may differ where several routes tie). *)
Theorem cost_independent_of_call_order ops ops' start end_ :
  ops ≡ₚ ops' →
  nodes_before_edges empty ops → nodes_before_edges empty ops' →
  (∀ a b w, AddEdge a b w ∈ ops → 0 ≤ w) →
  ∃ fuel c p p', ∀ n, (fuel ≤ n)%nat →
    dijkstra n (build ops) start end_ = Returned (p, c) ∧
    dijkstra n (build ops') start end_ = Returned (p', c).
Proof.
  intros Hperm Hops Hops' Hw.
  assert (Hsub : ∀ o1 o2, o1 ≡ₚ o2 → nodes_before_edges empty o2 →
            ∀ u v w, (v, w) ∈ get_neighbors (build o1) u →
                     (v, w) ∈ get_neighbors (build o2) u).
  { intros o1 o2 Hp Ho2 u v w Hin.
    apply entries_run in Hin as [Hin|[Hin|Hin]].
    - rewrite get_neighbors_empty in Hin. by apply elem_of_nil in Hin.
    - rewrite Hp in Hin. by apply (calls_run o2 empty u v w Ho2).
    - rewrite Hp in Hin. by apply (calls_run o2 empty v u w Ho2). }
  apply same_entries_same_cost.
  - intros u v w Hin. apply entries_run in Hin as [Hin|[Hin|Hin]].
    + rewrite get_neighbors_empty in Hin. by apply elem_of_nil in Hin.
    + by eapply Hw.
    + by eapply Hw.
  - intros u v w. split; by apply Hsub.
Qed.

Lemma cost_independent_of_call_order_witness :
  ∃ fuel c p p', ∀ n, (fuel ≤ n)%nat →
    dijkstra n (build [AddEdge 0 1 5; AddEdge 1 2 3]) 0 2 = Returned (p, c) ∧
    dijkstra n (build [AddEdge 1 2 3; AddEdge 0 1 5]) 0 2 = Returned (p', c).
Proof.
  apply (cost_independent_of_call_order
           [AddEdge 0 1 5; AddEdge 1 2 3] [AddEdge 1 2 3; AddEdge 0 1 5] 0 2).
  - apply perm_swap.
  - simpl. tauto.
  - simpl. tauto.
  - intros a b w Hin.
    apply elem_of_cons in Hin as [Hin|Hin]; [simplify_eq; lia|].
    apply list_elem_of_singleton in Hin. simplify_eq. lia.
Defined.

End GraphStoreExtras.

(* ===================================================================== *)
(** * Further properties of the tour planner *)
(* ===================================================================== *)

Section TourPlannerExtras.

Variable g : SimpleGraph.

(** A stop chosen by the scan is the incoming one, or a scanned stop
    together with the finite cost [a_star] returned for it. *)
Lemma nearest_scan_pick fuel current stops : ∀ nearest mt n t,
  nearest_scan fuel g current stops nearest mt = Returned (Some n, t) →
  (nearest = Some n ∧ mt = t) ∨
  (n ∈ stops ∧ ∃ p z, a_star fuel g current n = Returned (p, Fin z) ∧ t = Fin z).
Proof.
  induction stops as [|s stops IH]; intros nearest mt n t H; simpl in H.
  - left. by simplify_eq.
  - destruct (a_star fuel g current s) as [[p time]|e|] eqn:E; [|done..].
    destruct (cost_lt time mt) eqn:Hlt.
    + apply IH in H as [[Hn Ht]|(Hin & Hrest)].
      * simplify_eq. right. split; [by left|].
        destruct t as [z|]; [|done]. eauto.
      * right. split; [by right|done].
    + apply IH in H as [?|(Hin & Hrest)]; [by left|].
      right. split; [by right|done].
Qed.

(** What the loop returns extends the tour built so far by the stops
    that were still to visit, each once, none of them [0], and the total
    is the sum of the legs. *)
Lemma tsp_loop_result fuel rounds : ∀ unvisited current tour total tour' total',
  tsp_loop rounds fuel g unvisited current tour total = Returned (tour', total') →
  last tour = Some current → legs fuel g tour total → (∃ z, total = Fin z) →
  ∃ ext z', tour' = tour ++ ext ∧ ext ≡ₚ elements unvisited ∧ (0 ∉ ext) ∧
            legs fuel g tour' total' ∧ total' = Fin z'.
Proof.
  induction rounds as [|rounds IH];
    intros U cur tour total tour' total' H Hl Hlegs [z Hz]; [done|].
  cbn [tsp_loop] in H. case_decide as HU.
  - simplify_eq. exists [], z. rewrite app_nil_r, elements_empty.
    split_and!; [done..| |done|done]. by intros ?%elem_of_nil.
  - destruct (nearest_scan _ _ _ _ _ _) as [[nearest mt]|e|] eqn:E; [|done..].
    assert (Hsame : tsp_loop rounds fuel g U cur tour total
                    = Returned (tour', total') →
                    ∃ ext z', tour' = tour ++ ext ∧ ext ≡ₚ elements U ∧
                      (0 ∉ ext) ∧ legs fuel g tour' total' ∧ total' = Fin z').
    { intros H'. eapply IH; eauto. }
    destruct nearest as [n|]; [|by apply Hsame].
    destruct (truthy (Some n)) eqn:Ht; [|by apply Hsame]. clear Hsame.
    apply nearest_scan_pick in E as [[? _]|(Hin & p & zt & Ha & ->)]; [done|].
    apply elem_of_elements in Hin.
    apply last_Some in Hl as [tour0 ->].
    apply IH in H as (ext & z' & -> & Hperm & H0 & Hlegs' & Hz').
    + exists (n :: ext), z'. split_and!; [by rewrite <- app_assoc| | |done..].
      * rewrite Hperm.
        rewrite (union_difference_singleton_L n U Hin) at 2.
        rewrite elements_union_singleton by set_solver. done.
      * apply not_elem_of_cons. split; [|done].
        simpl in Ht. intros <-. done.
    + apply last_snoc.
    + by econstructor.
    + subst. simpl. eauto.
Qed.

(** X16: on a graph whose travel times are integers, when [greedy_tsp]
    returns on two or more stops, the tour starts with the first stop,
    continues with every distinct later stop exactly once and with
    nothing else, the total is finite and is the sum of the [a_star]
    costs of the consecutive legs; and node [0] is not among the later
    stops. *)
Theorem greedy_tsp_result rounds fuel first others tour total :
  others ≠ [] →
  greedy_tsp rounds fuel g (first :: others) = Returned (tour, total) →
  ∃ ext z, tour = first :: ext ∧ NoDup ext ∧ (∀ x, x ∈ ext ↔ x ∈ others) ∧
           (0 ∉ others) ∧ legs fuel g tour total ∧ total = Fin z.
Proof.
  intros Hne H. destruct others as [|o os]; [done|]. cbn [greedy_tsp] in H.
  apply tsp_loop_result in H as (ext & z & -> & Hperm & H0 & Hlegs & Hz);
    [|done|constructor|eauto].
  assert (Hmem : ∀ x, x ∈ ext ↔ x ∈ o :: os).
  { intros x. by rewrite Hperm, elem_of_elements, elem_of_list_to_set. }
  exists ext, z. split_and!; [done| |done| |done..].
  - rewrite Hperm. apply NoDup_elements.
  - by rewrite <- Hmem.
Qed.

Lemma cost_lt_irrefl a : cost_lt a a = false.
Proof. destruct a; simpl; [lia|done]. Qed.

Lemma cost_lt_chain a b c :
  cost_lt a b = true → cost_lt a c = false → cost_lt b c = false.
Proof. destruct a, b, c; simpl; try done; lia. Qed.

Lemma cost_lt_chain' a b c :
  cost_lt a b = false → cost_lt b c = false → cost_lt a c = false.
Proof. destruct a, b, c; simpl; try done; lia. Qed.

(** The cost the scan ends with is a least one: no more than the cost
    on entry and no more than the cost of any scanned stop. *)
Lemma nearest_scan_min fuel current stops : ∀ nearest mt r t,
  nearest_scan fuel g current stops nearest mt = Returned (r, t) →
  cost_lt mt t = false ∧
  ∀ s, s ∈ stops →
    ∃ p ts, a_star fuel g current s = Returned (p, ts) ∧ cost_lt ts t = false.
Proof.
  induction stops as [|s stops IH]; intros nearest mt r t H; simpl in H.
  - simplify_eq. split; [apply cost_lt_irrefl|]. by intros s ?%elem_of_nil.
  - destruct (a_star fuel g current s) as [[p time]|e|] eqn:E; [|done..].
    destruct (cost_lt time mt) eqn:Hlt.
    + apply IH in H as [Ht Hrest]. split; [by eapply cost_lt_chain|].
      intros s' [->|Hs']%elem_of_cons; [eauto|by apply Hrest].
    + apply IH in H as [Ht Hrest]. split; [done|].
      intros s' [->|Hs']%elem_of_cons; [|by apply Hrest].
      exists p, time. split; [done|]. by eapply cost_lt_chain'.
Qed.

Lemma tsp_loop_nearest fuel rounds : ∀ unvisited current tour total tour' total',
  tsp_loop rounds fuel g unvisited current tour total = Returned (tour', total') →
  ∃ ext, tour' = tour ++ ext ∧ ext ≡ₚ elements unvisited ∧
         nearest_first fuel g current ext.
Proof.
  induction rounds as [|rounds IH];
    intros U cur tour total tour' total' H; [done|].
  cbn [tsp_loop] in H. case_decide as HU.
  - simplify_eq. exists []. rewrite app_nil_r, elements_empty.
    split_and!; [done..|constructor].
  - destruct (nearest_scan _ _ _ _ _ _) as [[nearest mt]|e|] eqn:E; [|done..].
    destruct nearest as [n|]; [|by eapply IH].
    destruct (truthy (Some n)) eqn:Ht; [|by eapply IH].
    pose proof (nearest_scan_min _ _ _ _ _ _ _ E) as [_ Hmin].
    apply nearest_scan_pick in E as [[? _]|(Hin & p & zt & Ha & ->)]; [done|].
    apply elem_of_elements in Hin.
    apply IH in H as (ext & -> & Hperm & Hnear).
    assert (HpermU : n :: ext ≡ₚ elements U).
    { rewrite Hperm.
      rewrite (union_difference_singleton_L n U Hin) at 2.
      rewrite elements_union_singleton by set_solver. done. }
    exists (n :: ext). split_and!; [by rewrite <- app_assoc|done|].
    constructor; [|done]. intros z Hz. rewrite HpermU in Hz.
    destruct (Hmin z Hz) as (pz & tz & Hz' & Hle).
    exists p, (Fin zt), pz, tz. done.
Qed.

(** X17: when [greedy_tsp] returns, every stop of the tour after the
    first was, when it was chosen, a stop of least [a_star] cost from
    the stop before it among all stops not yet visited at that time. *)
Theorem greedy_tsp_takes_nearest rounds fuel first others tour total :
  others ≠ [] →
  greedy_tsp rounds fuel g (first :: others) = Returned (tour, total) →
  ∃ ext, tour = first :: ext ∧ nearest_first fuel g first ext.
Proof.
  intros Hne H. destruct others as [|o os]; [done|]. cbn [greedy_tsp] in H.
  apply tsp_loop_nearest in H as (ext & -> & _ & Hnear). eauto.
Qed.

End TourPlannerExtras.

Lemma greedy_tsp_result_witness :
  ∃ ext z, [0; 1; 2] = 0 :: ext ∧ NoDup ext ∧ (∀ x, x ∈ ext ↔ x ∈ [2; 1]) ∧
           (0 ∉ [2; 1]) ∧ legs 6 scenario [0; 1; 2] (Fin 8) ∧ Fin 8 = Fin z.
Proof.
  apply (greedy_tsp_result scenario 3 6 0 [2; 1] [0; 1; 2] (Fin 8)).
  - done.
  - vm_compute. reflexivity.
Defined.

Section TourTermination.

Variable g : SimpleGraph.

(** One amount of fuel serves finitely many queries. *)
Lemma uniform_fuel (pairs : list (Z * Z)) :
  nonneg_weights g →
  (∀ pr, pr ∈ pairs → reachable g pr.1 pr.2) →
  ∃ fuel, ∀ n, (fuel ≤ n)%nat → ∀ pr, pr ∈ pairs →
    ∃ p z, a_star n g pr.1 pr.2 = Returned (p, Fin z).
Proof.
  intros Hw. induction pairs as [|[s e] pairs IH]; intros Hr.
  - exists O. intros n _ pr Hin. by apply elem_of_nil in Hin.
  - destruct IH as [f1 IH]; [intros pr Hin; apply Hr; by right|].
    destruct (dijkstra_shortest g s e Hw) as (f2 & p & d & Hrun & _).
    { apply (Hr (s, e)). by left. }
    exists (max f1 f2). intros n Hn pr [->|Hin]%elem_of_cons.
    + exists p, d. simpl. rewrite a_star_dijkstra. apply Hrun. lia.
    + apply IH; [lia|done].
Qed.

(** When every scanned stop has a finite cost the scan ends holding one
    of them, or the stop it held on entry. *)
Lemma nearest_scan_finds fuel current stops : ∀ nearest mt,
  (∀ s, s ∈ stops → ∃ p z, a_star fuel g current s = Returned (p, Fin z)) →
  scan_state nearest mt →
  stops ≠ [] ∨ nearest ≠ None →
  ∃ x z, nearest_scan fuel g current stops nearest mt = Returned (Some x, Fin z)
         ∧ (x ∈ stops ∨ nearest = Some x).
Proof.
  induction stops as [|s stops IH]; intros nearest mt Hfin Hst Hne.
  - destruct Hne as [?|Hne]; [done|].
    destruct nearest as [x|], mt as [z|]; try done.
    exists x, z. split; [done|by right].
  - destruct (Hfin s) as (p & z0 & Ha); [by left|].
    simpl. rewrite Ha.
    assert (Hrest : ∀ s', s' ∈ stops →
              ∃ p z, a_star fuel g current s' = Returned (p, Fin z))
      by (intros s' Hs'; apply Hfin; by right).
    destruct (cost_lt (Fin z0) mt) eqn:Hlt.
    + destruct (IH (Some s) (Fin z0) Hrest) as (x & z & Hx & Hin);
        [done|by right|].
      exists x, z. split; [done|].
      destruct Hin as [?|?]; [left; by right|simplify_eq; left; by left].
    + destruct nearest as [x1|], mt as [z1|]; try done.
      destruct (IH (Some x1) (Fin z1) Hrest) as (x & z & Hx & Hin);
        [done|by right|].
      exists x, z. split; [done|].
      destruct Hin as [?|?]; [left; by right|by right].
Qed.

Lemma tsp_loop_returns fuel first (stops : gset Z) k :
  (∀ x y, x = first ∨ x ∈ stops → y ∈ stops →
          ∃ p z, a_star fuel g x y = Returned (p, Fin z)) →
  0 ∉ stops →
  ∀ unvisited current tour total,
    current = first ∨ current ∈ stops →
    unvisited ⊆ stops → (size unvisited ≤ k)%nat →
    ∃ res, tsp_loop (S k) fuel g unvisited current tour total = Returned res.
Proof.
  intros Hfin H0. induction k as [|k IH]; intros U cur tour total Hcur HU Hk.
  - assert (U ≡ ∅) as ->%leibniz_equiv by (apply size_empty_iff; lia).
    cbn [tsp_loop]. rewrite decide_True by done. eauto.
  - cbn [tsp_loop]. case_decide as Hempty; [eauto|].
    destruct (nearest_scan_finds fuel cur (elements U) None Inf)
      as (x & z & Hscan & Hin).
    + intros s Hs. apply Hfin; [done|]. by apply HU, elem_of_elements.
    + done.
    + left. intros He. apply Hempty.
      by apply elements_empty_inv, leibniz_equiv in He.
    + rewrite Hscan. destruct Hin as [Hin|?]; [|done].
      apply elem_of_elements in Hin.
      assert (Hx : x ≠ 0) by (intros ->; by apply H0, HU).
      assert (Ht : truthy (Some x) = true).
      { simpl. by destruct (Z.eqb_spec x 0). }
      rewrite Ht. apply IH; [right; by apply HU|set_solver|].
      rewrite size_difference by set_solver. rewrite size_singleton.
      assert (size U ≠ 0%nat); [|lia].
      intros Hs. apply size_empty_iff in Hs. set_solver.
Qed.

(** X18: on a graph whose travel times are integers, none of them
    negative, if node [0] is not among the later stops and every later
    stop is reachable from every stop, [greedy_tsp] returns once its
    loop may run more rounds than there are distinct later stops and the
    queries get enough fuel. *)
Theorem greedy_tsp_returns first others :
  nonneg_weights g → 0 ∉ others →
  (∀ x y, x ∈ first :: others → y ∈ others → reachable g x y) →
  ∃ fuel, ∀ rounds n,
    (size (list_to_set others : gset Z) < rounds)%nat → (fuel ≤ n)%nat →
    ∃ res, greedy_tsp rounds n g (first :: others) = Returned res.
Proof.
  intros Hw H0 Hr.
  destruct others as [|o os].
  { exists O. intros rounds n _ _. simpl. eauto. }
  set (others := o :: os) in *.
  destruct (uniform_fuel (list_prod (first :: others) others) Hw)
    as [fuel Hfuel].
  { intros [x y] Hin. apply list_elem_of_In, in_prod_iff in Hin.
    apply Hr; apply list_elem_of_In; tauto. }
  exists fuel. intros rounds n Hrounds Hn.
  destruct rounds as [|k]; [lia|].
  change (greedy_tsp (S k) n g (first :: others))
    with (tsp_loop (S k) n g (list_to_set others) first [first] (Fin 0)).
  apply (tsp_loop_returns n first (list_to_set others)); [| |by left|done|lia].
  - intros x y Hx Hy. apply elem_of_list_to_set in Hy.
    apply (Hfuel n Hn (x, y)).
    apply list_elem_of_In, in_prod; apply list_elem_of_In; [|done].
    destruct Hx as [->|Hx]; [by left|].
    right. by apply elem_of_list_to_set in Hx.
  - by rewrite elem_of_list_to_set.
Qed.

End TourTermination.

Lemma greedy_tsp_takes_nearest_witness :
  ∃ ext, [0; 1; 2] = 0 :: ext ∧ nearest_first 6 scenario 0 ext.
Proof.
  apply (greedy_tsp_takes_nearest scenario 3 6 0 [2; 1] [0; 1; 2] (Fin 8)).
  - done.
  - vm_compute. reflexivity.
Defined.

Lemma greedy_tsp_returns_witness :
  ∃ fuel, ∀ rounds n,
    (size (list_to_set [2%Z; 1%Z] : gset Z) < rounds)%nat → (fuel ≤ n)%nat →
    ∃ res, greedy_tsp rounds n scenario [0; 2; 1] = Returned res.
Proof.
  apply (greedy_tsp_returns scenario 0 [2; 1]).
  - apply weights_from_nonneg. reflexivity.
  - rewrite !not_elem_of_cons. split_and!; [lia..|]. by intros ?%elem_of_nil.
  - intros x y Hx Hy.
    assert (H0 : ∀ z, z ∈ [0; 2; 1] → reachable scenario 0 z).
    { intros z Hz. rewrite !elem_of_cons, elem_of_nil in Hz.
      destruct Hz as [->|[->|[->|[]]]];
        [apply rtc_refl|apply scenario_reach_0_2|apply scenario_reach_0_1]. }
    unfold reachable. etrans.
    + apply (reachable_sym scenario 0 x); [|by apply H0].
      apply symmetric_run; [|apply symmetric_empty].
      simpl. repeat split; reflexivity.
    + apply H0. by right.
Defined.

(* ===================================================================== *)
(** * Further properties of the batch dispatcher *)
(* ===================================================================== *)

Section BatchExtras.

Variables (self : ParallelProcessor) (g : SimpleGraph).

(** Without a positive pool size nothing is submitted: the call raises. *)
Lemma simple_parallel_no_pool fuel schedule requests :
  num_workers self ≤ 0 →
  simple_parallel self fuel schedule g requests = Raised ValueError.
Proof.
  intros Hpool. unfold simple_parallel.
  destruct (Z.leb_spec (num_workers self) 0) as [_|?]; [done|lia].
Qed.



Lemma sequential_app fuel l1 l2 :
  sequential fuel g (l1 ++ l2) =
  match sequential fuel g l1 with
  | Returned rs1 =>
      match sequential fuel g l2 with
      | Returned rs2 => Returned (rs1 ++ rs2)
      | Raised e => Raised e
      | Unfinished => Unfinished
      end
  | Raised e => Raised e
  | Unfinished => Unfinished
  end.
Proof.
  induction l1 as [|[s e] l1 IH]; simpl.
  - by destruct (sequential fuel g l2).
  - destruct (a_star fuel g s e); [|done..]. rewrite IH.
    destruct (sequential fuel g l1); [|done..].
    by destruct (sequential fuel g l2).
Qed.

(** X19: a batch over two request lists put one after the other returns
    exactly when the two separate batches return, and then its result is
    the two results put one after the other: a request's result does not
    depend on the requests around it nor on the schedules. *)
Theorem batch_of_concatenation fuel l1 l2 s1 s2 s12 :
  fair s1 (length l1) → fair s2 (length l2) → fair s12 (length (l1 ++ l2)) →
  ∀ rs, simple_parallel self fuel s12 g (l1 ++ l2) = Returned rs ↔
        ∃ rs1 rs2, simple_parallel self fuel s1 g l1 = Returned rs1 ∧
                   simple_parallel self fuel s2 g l2 = Returned rs2 ∧
                   rs = rs1 ++ rs2.
Proof.
  intros H1 H2 H12 rs.
  destruct (Z.le_gt_cases (num_workers self) 0) as [Hpool|Hpool].
  - rewrite !simple_parallel_no_pool by done. naive_solver.
  - rewrite !simple_parallel_pool by (done || lia). rewrite sequential_app.
    destruct (sequential fuel g l1) as [rs1| |]; [|naive_solver..].
    destruct (sequential fuel g l2) as [rs2| |]; naive_solver.
Qed.


End BatchExtras.

Lemma fair_seq n : fair (seq 0 n) n.
Proof. intros i Hi. apply elem_of_seq. lia. Qed.

Lemma batch_of_concatenation_witness :
  simple_parallel (mkPP 2) 6 [1; 0]%nat scenario ([(0, 2)] ++ [(0, 3)])
    = Returned [([0; 1; 2], Fin 8); ([0], Inf)] ↔
  ∃ rs1 rs2, simple_parallel (mkPP 2) 6 [0]%nat scenario [(0, 2)]
               = Returned rs1 ∧
             simple_parallel (mkPP 2) 6 [0]%nat scenario [(0, 3)]
               = Returned rs2 ∧
             [([0; 1; 2], Fin 8); ([0], Inf)] = rs1 ++ rs2.
Proof.
  apply (batch_of_concatenation (mkPP 2) scenario 6 [(0, 2)] [(0, 3)]
           [0]%nat [0]%nat [1; 0]%nat).
  - apply (fair_seq 1).
  - apply (fair_seq 1).
  - apply fair_swap.
Defined.

(* ===================================================================== *)
(** * Properties of the route endpoint *)
(* ===================================================================== *)

Section RouteEndpoint.

(** A finite cost is only returned for a reachable destination. *)
Lemma finite_cost_reachable g s e n p z :
  nonneg_weights g → dijkstra n g s e = Returned (p, Fin z) → reachable g s e.
Proof.
  intros Hw Hn.
  destruct (dijkstra_total g s e Hw)
    as (fuel & st & path & c & Hrun & _ & _ & _ & Hcase).
  destruct (Hrun (max fuel n) ltac:(lia)) as [_ Hd].
  apply (dijkstra_mono _ _ (max fuel n)) in Hn; [|lia].
  rewrite Hn in Hd. simplify_eq.
  by destruct Hcase as [(z' & _ & _ & _ & ?)|(? & _)].
Qed.

Lemma graph_nonneg : nonneg_weights graph.
Proof. apply weights_from_nonneg. vm_compute. reflexivity. Qed.

Lemma graph_symmetric : symmetric graph.
Proof.
  apply symmetric_run; [|apply symmetric_empty].
  vm_compute. repeat split; reflexivity.
Qed.

Lemma targets_below_sound k g x y w :
  targets_below k g = true → (y, w) ∈ get_neighbors g x → 0 ≤ y < k.
Proof.
  unfold targets_below, get_neighbors. intros Hc Hin.
  destruct (adjacency g !! x) as [l|] eqn:E; simpl in Hin;
    [|by apply elem_of_nil in Hin].
  rewrite forallb_forall in Hc.
  apply elem_of_map_to_list, list_elem_of_In in E.
  specialize (Hc _ E). simpl in Hc. rewrite forallb_forall in Hc.
  apply list_elem_of_In in Hin. specialize (Hc _ Hin). simpl in Hc. lia.
Qed.

Lemma keys_below_sound k g x :
  keys_below k g = true → get_neighbors g x ≠ [] → 0 ≤ x < k.
Proof.
  unfold keys_below, get_neighbors. intros Hc Hne.
  destruct (adjacency g !! x) as [l|] eqn:E; simpl in Hne; [|done].
  rewrite forallb_forall in Hc.
  apply elem_of_map_to_list, list_elem_of_In in E.
  specialize (Hc _ E). simpl in Hc. lia.
Qed.

Lemma graph_targets x y w : (y, w) ∈ get_neighbors graph x → 0 ≤ y < 15.
Proof. apply targets_below_sound. vm_compute. reflexivity. Qed.

Lemma graph_sources x : get_neighbors graph x ≠ [] → 0 ≤ x < 15.
Proof. apply keys_below_sound. vm_compute. reflexivity. Qed.

Lemma graph_reach_from_0 y : 0 ≤ y < 15 → reachable graph 0 y.
Proof.
  intros Hy.
  assert (∃ p z, dijkstra 32 graph 0 y = Returned (p, Fin z))
    as (p & z & H).
  { assert (y = 0 ∨ y = 1 ∨ y = 2 ∨ y = 3 ∨ y = 4 ∨ y = 5 ∨ y = 6 ∨ y = 7 ∨
            y = 8 ∨ y = 9 ∨ y = 10 ∨ y = 11 ∨ y = 12 ∨ y = 13 ∨ y = 14)
      as Hcases by lia.
    repeat (destruct Hcases as [->|Hcases];
            [eexists _, _; vm_compute; reflexivity|]).
    subst. eexists _, _. vm_compute. reflexivity. }
  eapply finite_cost_reachable; [apply graph_nonneg|exact H].
Qed.

Lemma graph_connected x y : 0 ≤ x < 15 → 0 ≤ y < 15 → reachable graph x y.
Proof.
  intros Hx Hy. unfold reachable. etrans.
  - apply reachable_sym; [apply graph_symmetric|by apply graph_reach_from_0].
  - by apply graph_reach_from_0.
Qed.

(** A destination other than the start is reached along an edge that
    leaves the start and an edge that enters the destination. *)
Lemma reachable_ends g s e :
  reachable g s e → s ≠ e →
  get_neighbors g s ≠ [] ∧ ∃ x w, (e, w) ∈ get_neighbors g x.
Proof.
  intros Hr Hne. split.
  - unfold reachable in Hr. destruct Hr as [|x y z [w Hw] _]; [done|].
    intros Hnil. rewrite Hnil in Hw. by apply elem_of_nil in Hw.
  - unfold reachable in Hr. apply rtc_inv_r in Hr as [?|(y & _ & [w Hw])];
      [done|eauto].
Qed.

(** The nodes of a route are its start and nodes entered by an edge. *)
Lemma route_nodes g s e p c :
  route g s e p c →
  ∀ y, y ∈ p → y = s ∨ ∃ x w, (y, w) ∈ get_neighbors g x.
Proof.
  intros (Hh & _ & Hc). revert s Hh.
  induction Hc as [x|x y p w c Hxy Hp IH]; intros s Hh z Hz;
    simpl in Hh; simplify_eq.
  - apply list_elem_of_singleton in Hz. by left.
  - apply elem_of_cons in Hz as [->|Hz]; [by left|].
    destruct (IH y eq_refl z Hz) as [->|?]; [|by right]. right. eauto.
Qed.

Lemma py_index_known i :
  0 ≤ i < 15 → py_index location_names i = location_names !! Z.to_nat i ∧
               is_Some (location_names !! Z.to_nat i).
Proof.
  intros Hi. unfold py_index.
  destruct (Z.leb_spec 0 i); [|lia]. split; [done|].
  apply lookup_lt_is_Some. simpl. lia.
Qed.

Lemma py_index_unknown i :
  i < -15 ∨ 15 ≤ i → py_index location_names i = None.
Proof.
  intros Hi. unfold py_index.
  destruct (Z.leb_spec 0 i).
  - apply lookup_ge_None. simpl. lia.
  - destruct (Z.leb_spec (- Z.of_nat (length location_names)) i); [|done].
    simpl in *. lia.
Qed.

Lemma calculate_route_dijkstra n start end_ algorithm :
  calculate_route n start end_ algorithm =
  match dijkstra n graph start end_ with
  | Returned (path, time) =>
      match mapM (py_index location_names) path with
      | Some path_names =>
          Returned (RouteSuccess path path_names time algorithm
                                 (Z.of_nat (length path) - 1))
      | None => Returned (RouteFailure IndexError)
      end
  | Raised e => Returned (RouteFailure e)
  | Unfinished => Unfinished
  end.
Proof.
  unfold calculate_route. rewrite a_star_dijkstra.
  by destruct (String.eqb algorithm "dijkstra").
Qed.

(** X20: for two ids of the fifteen locations the endpoint answers with
    success, whatever the [algorithm] string: the path is a route from
    [start] to [end_] of least cost, [time] is its cost, [distance] is
    its number of road segments and [path_names] are the names of its
    nodes. *)
Theorem route_between_known_locations start end_ algorithm :
  0 ≤ start < 15 → 0 ≤ end_ < 15 →
  ∃ fuel path names d,
    (∀ n, (fuel ≤ n)%nat →
       calculate_route n start end_ algorithm =
       Returned (RouteSuccess path names (Fin d) algorithm
                              (Z.of_nat (length path) - 1))) ∧
    route graph start end_ path d ∧
    (∀ p c, route graph start end_ p c → d ≤ c) ∧
    Forall2 (λ i name, location_names !! Z.to_nat i = Some name) path names.
Proof.
  intros Hs He.
  destruct (dijkstra_shortest graph start end_ graph_nonneg
              (graph_connected _ _ Hs He))
    as (fuel & path & d & Hrun & Hroute & Hmin).
  assert (Hnodes : ∀ y, y ∈ path → 0 ≤ y < 15).
  { intros y Hy. destruct (route_nodes _ _ _ _ _ Hroute y Hy)
      as [->|(x & w & Hw)]; [done|]. by eapply graph_targets. }
  assert (Hnames : ∃ names,
            Forall2 (λ i name, location_names !! Z.to_nat i = Some name)
                    path names ∧
            mapM (py_index location_names) path = Some names).
  { clear -Hnodes. induction path as [|y path IH].
    - exists []. split; [constructor|done].
    - destruct IH as (names & HF & HM); [intros z Hz; apply Hnodes; by right|].
      destruct (py_index_known y) as [Hi [name Hname]];
        [apply Hnodes; by left|].
      exists (name :: names). split; [by constructor|].
      apply mapM_Some. constructor; [by rewrite Hi|by apply mapM_Some]. }
  destruct Hnames as (names & HF & HM).
  exists fuel, path, names, d. split_and!; [|done..].
  intros n Hn. rewrite calculate_route_dijkstra, (Hrun n Hn). by rewrite HM.
Qed.

Lemma route_between_known_locations_witness :
  ∃ fuel path names d,
    (∀ n, (fuel ≤ n)%nat →
       calculate_route n 3 8 "astar" =
       Returned (RouteSuccess path names (Fin d) "astar"
                              (Z.of_nat (length path) - 1))) ∧
    route graph 3 8 path d ∧
    (∀ p c, route graph 3 8 p c → d ≤ c) ∧
    Forall2 (λ i name, location_names !! Z.to_nat i = Some name) path names.
Proof. apply (route_between_known_locations 3 8 "astar"); lia. Defined.

(** X21: for a start id outside [-15, 15) the endpoint answers with the
    failure response of an [IndexError], whatever the destination: the
    returned path begins with the start, whose name cannot be looked
    up. *)
Theorem route_from_unknown_start start end_ algorithm :
  start < -15 ∨ 15 ≤ start →
  ∃ fuel, ∀ n, (fuel ≤ n)%nat →
    calculate_route n start end_ algorithm = Returned (RouteFailure IndexError).
Proof.
  intros Hs.
  destruct (dijkstra_total graph start end_ graph_nonneg)
    as (fuel & st & path & c & Hrun & _ & _ & Hhd & _).
  exists fuel. intros n Hn. rewrite calculate_route_dijkstra.
  destruct (Hrun n Hn) as [_ ->].
  destruct path as [|y path]; [done|]. simpl in Hhd. simplify_eq.
  assert (mapM (py_index location_names) (start :: path) = None) as ->; [|done].
  apply mapM_None. constructor. by apply py_index_unknown.
Qed.

Lemma route_from_unknown_start_witness :
  ∃ fuel, ∀ n, (fuel ≤ n)%nat →
    calculate_route n 20 3 "dijkstra" = Returned (RouteFailure IndexError).
Proof. apply (route_from_unknown_start 20 3 "dijkstra"). lia. Defined.

(** X22: a start id in [-15, 15) with a destination that cannot be
    reached from it (the start is negative, or the destination is not
    one of the fifteen ids) is answered with success, not with a
    failure: the path is [[start]], the time is infinite, the distance
    is [0] and the one name is looked up with Python's indexing, which
    for a negative id is the name of another location. *)
Theorem route_to_unreachable_is_success start end_ algorithm :
  -15 ≤ start < 15 → start ≠ end_ →
  start < 0 ∨ end_ < 0 ∨ 15 ≤ end_ →
  ∃ fuel name,
    py_index location_names start = Some name ∧
    ∀ n, (fuel ≤ n)%nat →
      calculate_route n start end_ algorithm =
      Returned (RouteSuccess [start] [name] Inf algorithm 0).
Proof.
  intros Hs Hne Hout.
  assert (Hunreach : ¬ reachable graph start end_).
  { intros Hr. destruct (reachable_ends _ _ _ Hr Hne) as [Hsrc (x & w & Hw)].
    apply graph_sources in Hsrc. apply graph_targets in Hw. lia. }
  destruct (dijkstra_total graph start end_ graph_nonneg)
    as (fuel & st & path & c & Hrun & _ & _ & _ & Hcase).
  destruct Hcase as [(z & _ & _ & _ & ?)|(-> & -> & _)]; [done|].
  assert (is_Some (py_index location_names start)) as [name Hname].
  { unfold py_index. destruct (Z.leb_spec 0 start).
    - apply lookup_lt_is_Some. simpl. lia.
    - destruct (Z.leb_spec (- Z.of_nat (length location_names)) start);
        simpl in *; [|lia].
      apply lookup_lt_is_Some. simpl. lia. }
  exists fuel, name. split; [done|]. intros n Hn.
  rewrite calculate_route_dijkstra. destruct (Hrun n Hn) as [_ ->].
  simpl. by rewrite Hname.
Qed.

Lemma route_to_unreachable_is_success_witness :
  ∃ fuel name,
    py_index location_names (-1) = Some name ∧
    ∀ n, (fuel ≤ n)%nat →
      calculate_route n (-1) 3 "dijkstra" =
      Returned (RouteSuccess [-1] [name] Inf "dijkstra" 0).
Proof. apply (route_to_unreachable_is_success (-1) 3 "dijkstra"); lia. Defined.

End RouteEndpoint.
